(** * SlackBot: the Zendesk agent-status monitor

    A shallow embedding of [ZendeskMonitor] and of the [acknowledge_alert]
    action handler of [SlackBot.py], with the properties of the monitor's
    tracking map ([agent_status_times]) and alerted ledger
    ([alerted_agents]).

    Conventions.
    - A [datetime] is its number of microseconds on the time line (a [Z]);
      a [timedelta] is a difference of two of them, and
      [timedelta.total_seconds()] is that number of microseconds read as
      seconds, so [int(duration)] is a truncating division by [10^6] and
      [duration >= alert_threshold] compares against [alert_threshold * 10^6].
    - The network is an input: every HTTP call is given the response it
      receives, [RequestException] or a decoded JSON body of the shape the
      code's annotations give it (a list of user dicts, an availability
      dict).  A dict keeps the keys the code reads; a key may be missing.
    - [while True] is run over the finite list of polls the world offers;
      an exception that leaves [monitor_agents] ends the run. *)

From Stdlib Require Import ZArith Ascii String List Permutation.
From stdpp Require Import gmap strings list fin_maps fin_sets pretty sorting.
Import ListNotations.
Local Open Scope Z_scope.

(** ** JSON data and HTTP responses *)

Inductive json :=
  | JNull
  | JBool (b : bool)
  | JNum (n : Z)
  | JStr (s : string).

#[global] Instance json_eq_dec : EqDecision json.
Proof. solve_decision. Defined.

(** The outcome of [requests.get(...)] followed by [raise_for_status()] and
    [.json()]: the call raised a [RequestException], or it produced a body. *)
Inductive http (A : Type) :=
  | RequestException
  | Body (body : A).
Arguments RequestException {A}.
Arguments Body {A} body.

#[global] Instance http_eq_dec {A} `{EqDecision A} : EqDecision (http A).
Proof. solve_decision. Defined.

(** A user dict of the listing; [None] is a key the dict does not have. *)
Record agent := Agent {
  agent_id : option Z;
  agent_name : option string;
}.

#[global] Instance agent_eq_dec : EqDecision agent.
Proof. solve_decision. Defined.

(** The [availability] object of the voice endpoint. *)
Abbreviation availability := (gmap string json).

(** One element of the listing, together with the response the availability
    endpoint gives when the loop asks for that user in this cycle. *)
Definition observation : Type := agent * http (option availability).

Inductive exn :=
  | KeyError (key : string)
  | IndexError
  | SlackApiError.

#[global] Instance exn_eq_dec : EqDecision exn.
Proof. solve_decision. Defined.

(** ** The monitor object *)

Record ZendeskMonitor := Monitor {
  check_interval : Z;
  alert_threshold : Z;
  agent_status_times : gmap Z Z;
  alerted_agents : gset Z;
  excluded_agents : gset Z;
}.

(** [ZendeskMonitor.__init__], with [EXCLUDED_AGENTS] already parsed. *)
Definition init (excluded : gset Z) : ZendeskMonitor :=
  {| check_interval := 60;
     alert_threshold := 600;
     agent_status_times := ∅;
     alerted_agents := ∅;
     excluded_agents := excluded |}.

Definition set_times (f : gmap Z Z → gmap Z Z) (self : ZendeskMonitor) : ZendeskMonitor :=
  {| check_interval := check_interval self;
     alert_threshold := alert_threshold self;
     agent_status_times := f (agent_status_times self);
     alerted_agents := alerted_agents self;
     excluded_agents := excluded_agents self |}.

Definition set_alerted (f : gset Z → gset Z) (self : ZendeskMonitor) : ZendeskMonitor :=
  {| check_interval := check_interval self;
     alert_threshold := alert_threshold self;
     agent_status_times := agent_status_times self;
     alerted_agents := f (alerted_agents self);
     excluded_agents := excluded_agents self |}.

(** [get_agents]: the [users] list of the body, [[]] when the key is missing
    or the request failed. *)
Definition get_agents (r : http (option (list observation))) : list observation :=
  match r with
  | Body (Some users) => users
  | Body None => []
  | RequestException => []
  end.

(** [get_agent_availability]: the [availability] object of the body, [{}]
    when the key is missing or the request failed. *)
Definition get_agent_availability (r : http (option availability)) : availability :=
  match r with
  | Body (Some a) => a
  | Body None => ∅
  | RequestException => ∅
  end.

(** Truth value of a dict: it is not empty. *)
Definition truthy (d : availability) : bool := bool_decide (d ≠ ∅).

Definition microseconds : Z := 1000000.

(** [int(duration)] for a duration held in microseconds. *)
Definition int_seconds (duration : Z) : Z := Z.quot duration microseconds.

(** [duration >= self.alert_threshold]. *)
Definition reaches (duration threshold : Z) : bool :=
  threshold * microseconds <=? duration.

(** ** One cycle of [monitor_agents] *)

(** What a cycle has built so far: the monitor's fields, the local list
    [transfers_only_agents] and the calls of [send_slack_alert]. *)
Record cycle := Cycle {
  self : ZendeskMonitor;
  transfers_only_agents : list (string * Z);
  alerts : list (string * Z);
}.

(** [send_slack_alert]: the call is recorded; what Slack raises is caught
    and logged inside it, so it always returns. *)
Definition send_slack_alert (agent_name : string) (duration : Z)
    (sent : list (string * Z)) : list (string * Z) :=
  sent ++ [(agent_name, duration)].

(** The body of [for agent in agents]. *)
Definition process_agent (current_time : Z) (o : observation) (c : cycle)
  : cycle * option exn :=
  match agent_id (fst o) with
  | None => (c, Some (KeyError "id"))
  | Some i =>
    if decide (i ∈ excluded_agents (self c)) then (c, None)
    else
      match agent_name (fst o) with
      | None => (c, Some (KeyError "name"))
      | Some name =>
        let av := get_agent_availability (snd o) in
        if truthy av then
          if decide (av !! "agent_state"%string = Some (JStr "transfers_only")) then
            let '(m, started) :=
              match agent_status_times (self c) !! i with
              | Some t => (self c, t)
              | None =>
                (set_alerted (λ s, s ∖ {[i]})
                   (set_times (insert i current_time) (self c)),
                 current_time)
              end in
            let duration := current_time - started in
            let listed := transfers_only_agents c ++ [(name, duration)] in
            if reaches duration (alert_threshold m) && bool_decide (i ∉ alerted_agents m)
            then
              (Cycle (set_alerted (λ s, s ∪ {[i]}) m) listed
                     (send_slack_alert name (int_seconds duration) (alerts c)), None)
            else (Cycle m listed (alerts c), None)
          else
            (Cycle (set_alerted (λ s, s ∖ {[i]})
                      (set_times (delete i) (self c)))
                   (transfers_only_agents c) (alerts c), None)
        else (c, None)
      end
  end.

Fixpoint for_agents (current_time : Z) (agents : list observation) (c : cycle)
  : cycle * option exn :=
  match agents with
  | [] => (c, None)
  | o :: rest =>
    match process_agent current_time o c with
    | (c', None) => for_agents current_time rest c'
    | (c', Some e) => (c', Some e)
    end
  end.

(** [transfers_only_agents.sort(key=lambda x: x[1], reverse=True)]: a stable
    sort, longest duration first. *)
Fixpoint insert_desc (x : string * Z) (l : list (string * Z)) : list (string * Z) :=
  match l with
  | [] => [x]
  | y :: l' => if snd x <? snd y then y :: insert_desc x l' else x :: l
  end.

Definition sort_desc (l : list (string * Z)) : list (string * Z) :=
  foldr insert_desc [] l.

(** What the world offers to one cycle: the clock and the listing. *)
Record poll := Poll {
  now : Z;
  users : http (option (list observation));
}.

(** What one cycle leaves behind: the monitor, the summary it printed (if it
    printed one), the alerts it sent, and the exception that left the loop. *)
Record report := Report {
  monitor : ZendeskMonitor;
  summary : option (list (string * Z));
  sent : list (string * Z);
  raised : option exn;
}.

(** The body of [while True], without the sleep. *)
Definition monitor_cycle (p : poll) (m : ZendeskMonitor) : report :=
  let current_time := now p in
  let agents := get_agents (users p) in
  match agents with
  | [] => Report m None [] None
  | _ :: _ =>
    match for_agents current_time agents (Cycle m [] []) with
    | (c, None) =>
      Report (self c) (Some (sort_desc (transfers_only_agents c))) (alerts c) None
    | (c, Some e) => Report (self c) None (alerts c) (Some e)
    end
  end.

(** [monitor_agents] over the polls the world offers: one report per cycle
    that ran.  A cycle that raises is the last one. *)
Fixpoint monitor_agents (polls : list poll) (m : ZendeskMonitor) : list report :=
  match polls with
  | [] => []
  | p :: ps =>
    let r := monitor_cycle p m in
    r :: match raised r with
         | None => monitor_agents ps (monitor r)
         | Some _ => []
         end
  end.

(** The monitor after those cycles. *)
Fixpoint monitor_after (polls : list poll) (m : ZendeskMonitor) : ZendeskMonitor :=
  match polls with
  | [] => m
  | p :: ps =>
    let r := monitor_cycle p m in
    match raised r with
    | None => monitor_after ps (monitor r)
    | Some _ => monitor r
    end
  end.

(** ** The [acknowledge_alert] action *)

(** The parts of the action payload the handler subscripts; [None] is a
    missing key on the path. *)
Record action_body := ActionBody {
  action_values : option (list (option string));
  user_id : option string;
  channel_id : option string;
  message_ts : option string;
}.

(** Whether each call on the Slack side returns (rather than raises). *)
Record slack_client := SlackClient {
  ack_ok : bool;
  post_ok : bool;
  update_ok : bool;
}.

Inductive slack_call :=
  | Ack
  | ChatPostMessage (channel thread_ts user : string)
  | ChatUpdate (channel ts agent_name : string).

(** The [try] block: the calls made so far are threaded through, and an
    exception stops the block. *)
Definition handler (A : Type) : Type :=
  list slack_call -> list slack_call * (exn + A).

Definition ret {A} (a : A) : handler A := fun calls => (calls, inr a).

Definition raise {A} (e : exn) : handler A := fun calls => (calls, inl e).

Definition bind {A B} (h : handler A) (k : A -> handler B) : handler B :=
  fun calls =>
    match h calls with
    | (calls', inr a) => k a calls'
    | (calls', inl e) => (calls', inl e)
    end.

Notation "'let!' x ':=' h 'in' k" := (bind h (fun x => k))
  (at level 10, x pattern, h at level 100, k at level 200).

Definition call (c : slack_call) (ok : bool) : handler unit :=
  fun calls => if ok then (calls ++ [c], inr tt) else (calls, inl SlackApiError).

Definition subscript {A} (key : string) (o : option A) : handler A :=
  match o with
  | Some a => ret a
  | None => raise (KeyError key)
  end.

(** [body["actions"][0]["value"]] *)
Definition first_value (values : option (list (option string))) : handler string :=
  let! l := subscript "actions" values in
  match l with
  | [] => raise IndexError
  | v :: _ => subscript "value" v
  end.

Definition acknowledge_block (cl : slack_client) (body : action_body) : handler unit :=
  let! _ := call Ack (ack_ok cl) in
  let! agent_name := first_value (action_values body) in
  let! user := subscript "user" (user_id body) in
  let! channel := subscript "channel" (channel_id body) in
  let! ts := subscript "message" (message_ts body) in
  let! _ := call (ChatPostMessage channel ts user) (post_ok cl) in
  call (ChatUpdate channel ts agent_name) (update_ok cl).

(** ** The running program *)

(** The module-level objects the two entry points share, and what they have
    done: [monitoring] is false once the monitor thread has died. *)
Record program := Program {
  zendesk_monitor : ZendeskMonitor;
  monitoring : bool;
  reports : list report;
  slack_calls : list slack_call;
  error_log : list exn;
}.

Definition start (excluded : gset Z) : program :=
  Program (init excluded) true [] [] [].

(** [handle_acknowledgment]: the block above under
    [except Exception as e: logger.error(...)].  The second component is the
    exception that leaves the handler. *)
Definition handle_acknowledgment (cl : slack_client) (body : action_body) (g : program)
  : program * option exn :=
  match acknowledge_block cl body (slack_calls g) with
  | (calls, inr _) =>
    (Program (zendesk_monitor g) (monitoring g) (reports g) calls (error_log g), None)
  | (calls, inl e) =>
    (Program (zendesk_monitor g) (monitoring g) (reports g) calls (error_log g ++ [e]), None)
  end.

(** One cycle of the monitor thread, if it is still alive. *)
Definition tick (p : poll) (g : program) : program :=
  if monitoring g then
    let r := monitor_cycle p (zendesk_monitor g) in
    Program (monitor r) (bool_decide (raised r = None)) (reports g ++ [r])
            (slack_calls g) (error_log g)
  else g.

(** What happens to the program: the monitor thread runs a cycle, or the
    button of an alert is clicked.  The handler reads and writes nothing of
    the monitor, so running it between two cycles stands for running it at
    any point of a cycle. *)
Inductive event :=
  | Tick (p : poll)
  | Click (cl : slack_client) (body : action_body).

Definition step (g : program) (ev : event) : program :=
  match ev with
  | Tick p => tick p g
  | Click cl body => fst (handle_acknowledgment cl body g)
  end.

Definition run (events : list event) (g : program) : program :=
  fold_left step events g.

(** ** Vocabulary of the statements *)

(** The record is the one of agent [i]. *)
Definition entry_of (i : Z) (o : observation) : Prop := agent_id (fst o) = Some i.

(** The lookup answers with the watched status. *)
Definition watched (o : observation) : Prop :=
  get_agent_availability (snd o) !! "agent_state"%string = Some (JStr "transfers_only").

(** The lookup failed or gave no data. *)
Definition unavailable (o : observation) : Prop :=
  get_agent_availability (snd o) = ∅.

(** The lookup answers, with another status. *)
Definition elsewhere (o : observation) : Prop :=
  ¬ unavailable o ∧ ¬ watched o.

#[global] Instance entry_of_dec i o : Decision (entry_of i o).
Proof. unfold entry_of. apply _. Defined.

#[global] Instance watched_dec o : Decision (watched o).
Proof. unfold watched. apply _. Defined.

#[global] Instance unavailable_dec o : Decision (unavailable o).
Proof. unfold unavailable. apply _. Defined.

#[global] Instance elsewhere_dec o : Decision (elsewhere o).
Proof. unfold elsewhere. apply _. Defined.

(** The record has the keys the loop subscripts for it: [id], and [name]
    unless the agent is excluded. *)
Definition well_formed (excluded : gset Z) (o : observation) : Prop :=
  match agent_id (fst o) with
  | Some i => i ∈ excluded ∨ is_Some (agent_name (fst o))
  | None => False
  end.

#[global] Instance well_formed_dec excluded o : Decision (well_formed excluded o).
Proof. unfold well_formed. destruct (agent_id (fst o)); apply _. Defined.

(** The listing of the poll has agent [i], and every record of [i] in it
    satisfies [P]. *)
Definition seen (P : observation -> Prop) (i : Z) (p : poll) : Prop :=
  Exists (entry_of i) (get_agents (users p)) ∧
  Forall (fun o => entry_of i o → P o) (get_agents (users p)).

(** Every alerted agent has a live episode. *)
Definition ledger_tracked (m : ZendeskMonitor) : Prop :=
  alerted_agents m ⊆ dom (agent_status_times m).

(** The listing without the records of agent [i]. *)
Definition without (i : Z) (agents : list observation) : list observation :=
  filter (fun o => agent_id (fst o) ≠ Some i) agents.

(** The poll with the records of agent [i] taken out of its listing. *)
Definition forget (i : Z) (p : poll) : poll :=
  Poll (now p) (Body (Some (without i (get_agents (users p))))).

(** The two monitors hold the same episode and the same ledger membership
    for agent [i]. *)
Definition same_at (i : Z) (m m' : ZendeskMonitor) : Prop :=
  agent_status_times m' !! i = agent_status_times m !! i ∧
  (i ∈ alerted_agents m' ↔ i ∈ alerted_agents m).

(** The record cannot touch agent [i]: it is another agent's, or [i] is
    excluded, or the lookup gave nothing. *)
Definition idle_for (i : Z) (excluded : gset Z) (o : observation) : Prop :=
  ¬ entry_of i o ∨ i ∈ excluded ∨ unavailable o.

(** ** The scenario of the threshold alert *)

Definition transfers_only : http (option availability) :=
  Body (Some {[ "agent_state"%string := JStr "transfers_only" ]}).

Definition online : http (option availability) :=
  Body (Some {[ "agent_state"%string := JStr "online" ]}).

(** The poll at second [t] whose listing is the single agent [a], in the
    watched status. *)
Definition watched_poll (a : agent) (t : Z) : poll :=
  Poll (t * microseconds) (Body (Some [(a, transfers_only)])).

Definition other_poll (a : agent) (t : Z) : poll :=
  Poll (t * microseconds) (Body (Some [(a, online)])).

Definition alice : agent := Agent (Some 7) (Some "Alice"%string).

Definition bob : agent := Agent (Some 8) (Some "Bob"%string).

(** A record without the [id] key. *)
Definition anonymous : agent := Agent None (Some "Carol"%string).

(** The payload of the button of Alice's alert, and a Slack side on which
    every call succeeds. *)
Definition alice_click : action_body :=
  ActionBody (Some [Some "Alice"%string]) (Some "U1"%string)
             (Some "C1"%string) (Some "1700000000.000100"%string).

Definition slack_up : slack_client := SlackClient true true true.

(** The first [n] polls of a monitor that polls every [check_interval]
    seconds from second 0. *)
Definition watched_polls (interval : Z) (a : agent) (n : nat) : list poll :=
  map (fun k => watched_poll a (Z.of_nat k * interval)) (seq 0 n).

(** ** The excluded agents of [__init__] *)

(** [str.split(",")]: the pieces between the commas, one more than there are
    commas. *)
Fixpoint split_comma (s : string) : list string :=
  match s with
  | EmptyString => [EmptyString]
  | String a s' =>
    if Ascii.eqb a ","%char then EmptyString :: split_comma s'
    else
      match split_comma s' with
      | piece :: rest => String a piece :: rest
      | [] => [String a EmptyString]
      end
  end.

(** [set(map(int, excluded.split(","))) if excluded else set()], for the
    value of [EXCLUDED_AGENTS] ([""] when unset).  [int] is the parser of
    integers, [None] where it raises [ValueError]; the result is [None] when
    [__init__] raises it. *)
Definition parse_excluded (int : string -> option Z) (excluded : string)
  : option (gset Z) :=
  if decide (excluded = EmptyString) then Some ∅
  else list_to_set <$> mapM int (split_comma excluded).

(** ** The printed durations *)

(** [format_duration], for a duration held in microseconds.  [divmod] is the
    floor division and its remainder; [pretty] writes an integer as [str]
    does. *)
Definition format_duration (duration : Z) : string :=
  let total := int_seconds duration in
  let minutes := total / 60 in
  let seconds := total mod 60 in
  let hours := minutes / 60 in
  let minutes := minutes mod 60 in
  if 0 <? hours then
    pretty hours +:+ "h " +:+ pretty minutes +:+ "m " +:+ pretty seconds +:+ "s"
  else if 0 <? minutes then
    pretty minutes +:+ "m " +:+ pretty seconds +:+ "s"
  else pretty seconds +:+ "s".

(** Reading a printed duration back: the digits a string starts with, and
    what follows them. *)
Definition is_digit (a : ascii) : bool :=
  (48 <=? nat_of_ascii a)%nat && (nat_of_ascii a <=? 57)%nat.

Fixpoint all_digits (s : string) : bool :=
  match s with
  | EmptyString => true
  | String a s' => is_digit a && all_digits s'
  end.

Fixpoint leading_digits (s : string) : string :=
  match s with
  | EmptyString => EmptyString
  | String a s' => if is_digit a then String a (leading_digits s') else EmptyString
  end.

Fixpoint after_digits (s : string) : string :=
  match s with
  | EmptyString => EmptyString
  | String a s' => if is_digit a then after_digits s' else s
  end.

(** The order of the summary: longer durations first. *)
Definition longer_first (x y : string * Z) : Prop := snd y <= snd x.

(** Every episode of the tracking map started at [t] or before. *)
Definition started_by (t : Z) (m : ZendeskMonitor) : Prop :=
  map_Forall (fun _ s => s <= t) (agent_status_times m).

(** ** [RateLimiter] *)

(** The decorator object.  The floats of [time.time()] are read as exact
    times, in microseconds like the datetimes above. *)
Record RateLimiter := Limiter {
  calls_per_minute : Z;
  calls : list Z;
}.

Definition minute : Z := 60 * microseconds.

(** [wrapper]: [now] is the first reading of the clock; [func] is what the
    decorated function does: it raises, or it returns and the clock then
    reads the given time.  The result is the limiter afterwards, with the
    exception that leaves the wrapper or the time it slept (if it did). *)
Definition wrapper (now : Z) (func : exn + Z) (self : RateLimiter)
  : RateLimiter * (exn + option Z) :=
  let recent := filter (fun call_time => now - call_time < minute) (calls self) in
  let slept :=
    if decide (calls_per_minute self <= Z.of_nat (length recent)) then
      match recent with
      | [] => inl IndexError
      | first :: _ =>
        let sleep_time := minute - (now - first) in
        inr (if 0 <? sleep_time then Some sleep_time else None)
      end
    else inr None in
  match slept with
  | inl e => (Limiter (calls_per_minute self) recent, inl e)
  | inr slept =>
    match func with
    | inl e => (Limiter (calls_per_minute self) recent, inl e)
    | inr finished =>
      (Limiter (calls_per_minute self) (recent ++ [finished]), inr slept)
    end
  end.

(** The part of [wrapper] that comes before the call of the decorated
    function, whatever that call then does: the exception of
    [self.calls[0]], or the time given to [time.sleep] (if it is called). *)
Definition wrapper_sleep (now : Z) (self : RateLimiter) : exn + option Z :=
  let recent := filter (fun call_time => now - call_time < minute) (calls self) in
  if decide (calls_per_minute self <= Z.of_nat (length recent)) then
    match recent with
    | [] => inl IndexError
    | first :: _ =>
      let sleep_time := minute - (now - first) in
      inr (if 0 <? sleep_time then Some sleep_time else None)
    end
  else inr None.

(** The calls of a decorated function one after the other: each with the two
    readings of the clock (the function returns).  [None] when a call raises. *)
Fixpoint wrapper_calls (times : list (Z * Z)) (self : RateLimiter) : option RateLimiter :=
  match times with
  | [] => Some self
  | (now, finished) :: rest =>
    match wrapper now (inr finished) self with
    | (self', inr _) => wrapper_calls rest self'
    | (_, inl _) => None
    end
  end.

(** The clock of such calls: a call does not start before the one before it
    has finished, and it finishes no earlier than its start plus the time the
    wrapper asked to sleep. *)
Fixpoint clocked (last : Z) (times : list (Z * Z)) (self : RateLimiter) : Prop :=
  match times with
  | [] => True
  | (now, finished) :: rest =>
    last <= now ∧
    match wrapper now (inr finished) self with
    | (self', inr slept) => now + default 0 slept <= finished ∧ clocked finished rest self'
    | (_, inl _) => True
    end
  end.

(** What the wrapper keeps, in terms of the finishing times of all calls so
    far ([history]): read at any time from [last] on, its list holds the
    calls of the last minute, and at [last] these are at most [limit]. *)
Definition limiter_inv (limit last : Z) (history : list Z) (self : RateLimiter) : Prop :=
  calls_per_minute self = limit ∧
  (∀ t, last <= t →
     filter (fun c => t - c < minute) history =
     filter (fun c => t - c < minute) (calls self)) ∧
  Z.of_nat (length (filter (fun c => last - c < minute) history)) <= limit.

(** ** The sheet of logged questions *)

(** The cell in row [r] and column [c] of the grid, both counted from 0. *)
Definition cell (sheet : list (list string)) (r c : nat) : string :=
  default ""%string (sheet !! r ≫= (fun row => row !! c)).

(** The answer of [users_info]: the call raised, or it gave a response with
    its [ok] flag and, if the keys are there, the real name. *)
Inductive users_info :=
  | UsersInfoError
  | UsersInfo (ok : bool) (real_name : option string).

Definition get_slack_user_name (info : users_info) (user_id : string) : string :=
  match info with
  | UsersInfo true (Some real_name) => real_name
  | _ => user_id
  end.

(** The sheet is the list of its rows, as [get_all_values] gives them; the
    first row is the header.  [append_row] adds a row below the last one and
    [update_cell] writes one cell of the grid, an empty cell reading [""].
    Each call of the API is given whether it returns (rather than raises);
    every method catches what is raised and logs it. *)
Section sheet.

(** [str.strip] and [str.lower]. *)
Variables strip lower : string -> string.

Definition is_duplicate (real_name question : string) (row : list string) : bool :=
  match row with
  | _ :: name :: asked :: _ =>
    bool_decide (name = real_name) &&
    bool_decide (lower (strip asked) = lower (strip question))
  | _ => false
  end.

Definition log_entry (info : users_info) (timestamp : string)
    (values_ok append_ok : bool)
    (user_id question answer feedback manager : string)
    (sheet : list (list string)) : list (list string) :=
  let real_name := get_slack_user_name info user_id in
  if values_ok then
    if existsb (is_duplicate real_name question) (tail sheet) then sheet
    else if append_ok then
      sheet ++ [[timestamp; real_name; question; answer; feedback; manager]]
    else sheet
  else sheet.

Definition matches_row (user_name question : string) (row : list string) : bool :=
  match row with
  | _ :: name :: asked :: _ =>
    bool_decide (strip name = strip user_name) &&
    bool_decide (strip asked = strip question)
  | _ => false
  end.

(** [for idx, row in enumerate(rows, start=idx)] *)
Fixpoint find_row_from (idx : Z) (user_name question : string)
    (rows : list (list string)) : option Z :=
  match rows with
  | [] => None
  | row :: rest =>
    if matches_row user_name question row then Some idx
    else find_row_from (idx + 1) user_name question rest
  end.

Definition find_row_by_question (values_ok : bool) (user_name question : string)
    (sheet : list (list string)) : option Z :=
  if values_ok then find_row_from 2 user_name question (tail sheet) else None.

Definition set_cell (col : nat) (value : string) (row : list string) : list string :=
  <[col := value]> (row ++ replicate (S col - length row) ""%string).

(** [update_cell(row, col, value)], rows and columns counted from 1, for a
    row the sheet has. *)
Definition update_cell (row col : Z) (value : string)
    (sheet : list (list string)) : list (list string) :=
  alter (set_cell (Z.to_nat (col - 1)) value) (Z.to_nat (row - 1)) sheet.

Definition update_feedback (info : users_info) (values_ok cell5_ok cell6_ok : bool)
    (user_id question feedback manager : string)
    (sheet : list (list string)) : list (list string) :=
  let user_name := get_slack_user_name info user_id in
  match find_row_by_question values_ok user_name question sheet with
  | Some row_num =>
    if bool_decide (row_num ≠ 0) then
      if cell5_ok then
        let sheet5 := update_cell row_num 5 feedback sheet in
        if cell6_ok then update_cell row_num 6 manager sheet5 else sheet5
      else sheet
    else sheet
  | None => sheet
  end.

(** The sheet has, below its header, a row for this name and this
    question up to case and outer blanks. *)
Definition logged (real_name question : string) (sheet : list (list string)) : Prop :=
  existsb (is_duplicate real_name question) (tail sheet) = true.

End sheet.

(** * Properties *)

Set Warnings "-clear-no-such-hyp".

(** ** The loop body, one record at a time *)

Ltac process_cases :=
  unfold process_agent, send_slack_alert in *; cbv zeta in *;
  repeat case_match; simplify_eq/=.

(** The configuration of the monitor is never written. *)
Lemma process_agent_config t o c c' e :
  process_agent t o c = (c', e) →
  excluded_agents (self c') = excluded_agents (self c) ∧
  alert_threshold (self c') = alert_threshold (self c) ∧
  check_interval (self c') = check_interval (self c).
Proof. intros H. process_cases; done. Qed.

Lemma for_agents_config t l : ∀ c c' e,
  for_agents t l c = (c', e) →
  excluded_agents (self c') = excluded_agents (self c) ∧
  alert_threshold (self c') = alert_threshold (self c) ∧
  check_interval (self c') = check_interval (self c).
Proof.
  induction l as [|o l IH]; intros c c' e H; simpl in H.
  - by simplify_eq.
  - destruct (process_agent t o c) as [c1 [e1|]] eqn:Ho.
    + simplify_eq. by eapply process_agent_config.
    + destruct (process_agent_config _ _ _ _ _ Ho) as (<- & <- & <-).
      by eapply IH.
Qed.

Lemma for_agents_app t l1 l2 c :
  for_agents t (l1 ++ l2) c =
  match for_agents t l1 c with
  | (c1, None) => for_agents t l2 c1
  | (c1, Some e) => (c1, Some e)
  end.
Proof.
  revert c. induction l1 as [|o l1 IH]; intros c; simpl; [done|].
  destruct (process_agent t o c) as [c1 [e1|]]; [done|]. apply IH.
Qed.

Lemma same_at_refl i m : same_at i m m.
Proof. by split. Qed.

Lemma same_at_trans i m1 m2 m3 :
  same_at i m1 m2 → same_at i m2 m3 → same_at i m1 m3.
Proof. intros [H1 H2] [H3 H4]. split; [congruence | tauto]. Qed.

Lemma truthy_unavailable o :
  truthy (get_agent_availability (snd o)) = true → ¬ unavailable o.
Proof. unfold truthy, unavailable. by intros ?%bool_decide_eq_true. Qed.

(** A record that is idle for [i] leaves the episode and the ledger
    membership of [i] as they were, whatever else it does. *)
Lemma process_agent_idle t o c c' e i :
  idle_for i (excluded_agents (self c)) o →
  process_agent t o c = (c', e) →
  same_at i (self c) (self c').
Proof.
  intros Hidle H. process_cases; try apply same_at_refl.
  all: match goal with
       | Hid : agent_id _ = Some ?j, Htr : truthy _ = true |- _ =>
         assert (j ≠ i) as Hne
           by (intros ->; destruct Hidle as [?|[?|?]];
               [done | done | by eapply truthy_unavailable])
       end.
  all: split; simpl; rewrite ?lookup_insert_ne, ?lookup_delete_ne by done;
    first [done | clear -Hne; set_solver].
Qed.

Lemma for_agents_idle t i l : ∀ c c' e,
  Forall (idle_for i (excluded_agents (self c))) l →
  for_agents t l c = (c', e) →
  same_at i (self c) (self c').
Proof.
  induction l as [|o l IH]; intros c c' e Hall H; simpl in H.
  - simplify_eq. apply same_at_refl.
  - apply Forall_cons in Hall as [Ho Hall].
    destruct (process_agent t o c) as [c1 [e1|]] eqn:Hp.
    + simplify_eq. by eapply process_agent_idle.
    + eapply same_at_trans; [by eapply process_agent_idle|].
      eapply IH; [|done].
      by destruct (process_agent_config _ _ _ _ _ Hp) as (-> & _).
Qed.

(** A record of an excluded agent, or a named record whose lookup gave
    nothing, does nothing at all. *)
Lemma process_agent_skip t o c i :
  entry_of i o →
  i ∈ excluded_agents (self c) ∨ (is_Some (agent_name (fst o)) ∧ unavailable o) →
  process_agent t o c = (c, None).
Proof.
  unfold entry_of, unavailable, process_agent. intros -> Hskip.
  destruct (decide (i ∈ excluded_agents (self c))) as [|Hex]; [done|].
  destruct Hskip as [?|[[name ->] ->]]; [done|].
  unfold truthy. by rewrite bool_decide_eq_false_2 by (by intros []).
Qed.

Lemma without_cons_entry i o l : entry_of i o → without i (o :: l) = without i l.
Proof. intros Ho. unfold without. by rewrite filter_cons_False by (by intros []). Qed.

Lemma without_cons_other i o l : ¬ entry_of i o → without i (o :: l) = o :: without i l.
Proof. intros Ho. unfold without. by rewrite filter_cons_True. Qed.

(** Records that do nothing can be left out of the listing. *)
Lemma for_agents_without t i l : ∀ c,
  (∀ o, o ∈ l → entry_of i o →
     i ∈ excluded_agents (self c) ∨ (is_Some (agent_name (fst o)) ∧ unavailable o)) →
  for_agents t l c = for_agents t (without i l) c.
Proof.
  induction l as [|o l IH]; intros c Hall; [done|].
  destruct (decide (entry_of i o)) as [Ho|Ho].
  - rewrite without_cons_entry by done. simpl.
    assert (process_agent t o c = (c, None)) as ->.
    { apply (process_agent_skip t o c i); [done|]. apply Hall; [left|done]. }
    apply IH. intros o' Ho'. apply Hall. by right.
  - rewrite without_cons_other by done. simpl.
    destruct (process_agent t o c) as [c1 [e1|]] eqn:Hp; [done|].
    apply IH. intros o' Ho'.
    destruct (process_agent_config _ _ _ _ _ Hp) as (-> & _).
    apply Hall. by right.
Qed.

Lemma watched_truthy o : watched o → truthy (get_agent_availability (snd o)) = true.
Proof.
  unfold watched, truthy. intros Hw. apply bool_decide_eq_true_2.
  intros Hempty. by rewrite Hempty, lookup_empty in Hw.
Qed.

(** What the loop body does with a record in the watched status. *)
Lemma process_agent_watched t o c i name :
  entry_of i o →
  i ∉ excluded_agents (self c) →
  agent_name (fst o) = Some name →
  watched o →
  let started := default t (agent_status_times (self c) !! i) in
  let due := reaches (t - started) (alert_threshold (self c)) in
  let suppressed :=
    bool_decide (is_Some (agent_status_times (self c) !! i) ∧ i ∈ alerted_agents (self c)) in
  ∃ c', process_agent t o c = (c', None) ∧
    agent_status_times (self c') !! i = Some started ∧
    (∀ j, j ≠ i → same_at j (self c) (self c')) ∧
    transfers_only_agents c' = transfers_only_agents c ++ [(name, t - started)] ∧
    alerts c' =
      alerts c ++ (if due && negb suppressed then [(name, int_seconds (t - started))] else []) ∧
    (i ∈ alerted_agents (self c') ↔ suppressed = true ∨ due = true).
Proof.
  unfold entry_of. intros Hid Hex Hname Hw.
  pose proof (watched_truthy _ Hw) as Htr. unfold watched in Hw.
  unfold process_agent, send_slack_alert. rewrite Hid, Hname, Htr. cbv zeta.
  rewrite decide_False by done. rewrite decide_True by done.
  destruct (agent_status_times (self c) !! i) as [s|] eqn:Hs; simpl.
  - destruct (decide (i ∈ alerted_agents (self c))) as [Hin|Hin].
    + rewrite (bool_decide_eq_false_2 (i ∉ _)) by tauto.
      rewrite (bool_decide_eq_true_2 (is_Some _ ∧ _)) by eauto.
      rewrite !andb_false_r. eexists; split; [done|]. simpl.
      rewrite app_nil_r. repeat split; auto.
    + rewrite (bool_decide_eq_true_2 (i ∉ _)) by done.
      rewrite (bool_decide_eq_false_2 (is_Some _ ∧ _)) by tauto.
      rewrite !andb_true_r.
      destruct (reaches (t - s) (alert_threshold (self c))) eqn:Hr;
        (eexists; split; [done|]); simpl; rewrite ?app_nil_r;
        repeat split; simpl; try done; try set_solver.
  - rewrite (bool_decide_eq_true_2 (i ∉ _)) by (clear; set_solver).
    rewrite !andb_true_r.
    destruct (reaches (t - t) (alert_threshold (self c))) eqn:Hr;
      (eexists; split; [done|]); simpl; rewrite ?app_nil_r, ?lookup_insert_eq;
      repeat split; simpl; rewrite ?lookup_insert_ne by done;
      try done; try set_solver.
Qed.

(** What the loop body does with a record in another status. *)
Lemma process_agent_elsewhere t o c i name :
  entry_of i o →
  i ∉ excluded_agents (self c) →
  agent_name (fst o) = Some name →
  elsewhere o →
  process_agent t o c =
    (Cycle (set_alerted (λ s, s ∖ {[i]}) (set_times (delete i) (self c)))
           (transfers_only_agents c) (alerts c), None).
Proof.
  unfold entry_of, elsewhere, unavailable, watched. intros Hid Hex Hname [Hu Hw].
  unfold process_agent. rewrite Hid, Hname. cbv zeta.
  rewrite decide_False by done. unfold truthy.
  rewrite bool_decide_eq_true_2 by done. by rewrite decide_False by done.
Qed.

(** The two lists of a cycle only grow. *)
Lemma process_agent_grows t o c c' e :
  process_agent t o c = (c', e) →
  transfers_only_agents c `prefix_of` transfers_only_agents c' ∧
  alerts c `prefix_of` alerts c'.
Proof.
  intros H. process_cases; split; try done; by apply prefix_app_r.
Qed.

Lemma for_agents_grows t l : ∀ c c' e,
  for_agents t l c = (c', e) →
  transfers_only_agents c `prefix_of` transfers_only_agents c' ∧
  alerts c `prefix_of` alerts c'.
Proof.
  induction l as [|o l IH]; intros c c' e H; simpl in H.
  - by simplify_eq.
  - destruct (process_agent t o c) as [c1 [e1|]] eqn:Hp.
    + simplify_eq. by eapply process_agent_grows.
    + apply process_agent_grows in Hp as [H1 H2]. apply IH in H as [H3 H4].
      split; by etrans.
Qed.

(** While no record shows agent [i] in another status, a live episode keeps
    its start, and its ledger entry if it has one. *)
Lemma process_agent_keeps t o c c' e i s :
  agent_status_times (self c) !! i = Some s →
  (entry_of i o → ¬ elsewhere o) →
  process_agent t o c = (c', e) →
  agent_status_times (self c') !! i = Some s ∧
  (i ∈ alerted_agents (self c) → i ∈ alerted_agents (self c')).
Proof.
  intros Hs Hno H.
  destruct (decide (entry_of i o)) as [Hi|Hi].
  - specialize (Hno Hi).
    destruct (decide (i ∈ excluded_agents (self c))) as [Hex|Hex].
    { rewrite (process_agent_skip t o c i) in H by auto. by simplify_eq. }
    destruct (agent_name (fst o)) as [name|] eqn:Hname.
    2: { unfold process_agent in H. rewrite Hi, Hname in H.
         rewrite decide_False in H by done. by simplify_eq. }
    destruct (decide (unavailable o)) as [Hu|Hu].
    { rewrite (process_agent_skip t o c i) in H by (rewrite ?Hname; eauto).
      by simplify_eq. }
    destruct (decide (watched o)) as [Hw|Hw]; [|by destruct Hno].
    destruct (process_agent_watched t o c i name Hi Hex Hname Hw)
      as (c1 & Hp & Hst & _ & _ & _ & Hal).
    rewrite Hp in H. simplify_eq. rewrite Hs in Hst. split; [done|].
    intros Hin. apply Hal. left. apply bool_decide_eq_true_2. eauto.
  - assert (same_at i (self c) (self c')) as [H1 H2].
    { eapply process_agent_idle; [|done]. by left. }
    split; [congruence | tauto].
Qed.

Lemma for_agents_keeps t i s l : ∀ c c' e,
  agent_status_times (self c) !! i = Some s →
  (∀ o, o ∈ l → entry_of i o → ¬ elsewhere o) →
  for_agents t l c = (c', e) →
  agent_status_times (self c') !! i = Some s ∧
  (i ∈ alerted_agents (self c) → i ∈ alerted_agents (self c')).
Proof.
  induction l as [|o l IH]; intros c c' e Hs Hno H; simpl in H.
  - by simplify_eq.
  - destruct (process_agent t o c) as [c1 [e1|]] eqn:Hp.
    + simplify_eq. eapply process_agent_keeps; [done| |done].
      apply Hno. by left.
    + eapply process_agent_keeps in Hp as [H1 H2]; [|done|apply Hno; by left].
      eapply IH in H as [H3 H4]; [|done|].
      * split; [done|tauto].
      * intros o' Ho'. apply Hno. by right.
Qed.

Lemma completes_named t o c c' i :
  entry_of i o →
  i ∉ excluded_agents (self c) →
  process_agent t o c = (c', None) →
  is_Some (agent_name (fst o)).
Proof.
  unfold entry_of, process_agent. intros -> Hex H.
  rewrite decide_False in H by done.
  destruct (agent_name (fst o)); [eauto | done].
Qed.

Lemma elem_of_prefix {A} (x : A) (l1 l2 : list A) :
  l1 `prefix_of` l2 → x ∈ l1 → x ∈ l2.
Proof. intros [k ->] Hx. apply elem_of_app. by left. Qed.

(** A cycle that completes and sees agent [i] only in the watched status:
    the episode starts now unless it is already live, and every record of
    [i] is reported with the time since that start. *)
Lemma for_agents_watched t i l : ∀ c c',
  i ∉ excluded_agents (self c) →
  (∀ o, o ∈ l → entry_of i o → watched o) →
  for_agents t l c = (c', None) →
  let started := default t (agent_status_times (self c) !! i) in
  ((∃ o, o ∈ l ∧ entry_of i o) →
     agent_status_times (self c') !! i = Some started) ∧
  (∀ o name, o ∈ l → entry_of i o → agent_name (fst o) = Some name →
     (name, t - started) ∈ transfers_only_agents c').
Proof.
  induction l as [|o l IH]; intros c c' Hex Hw H; simpl in H.
  { split; [intros (o & Ho & _) | intros o name Ho]; by apply elem_of_nil in Ho. }
  destruct (process_agent t o c) as [c1 [e1|]] eqn:Hp; [done|].
  assert (Hex1 : i ∉ excluded_agents (self c1)).
  { by destruct (process_agent_config _ _ _ _ _ Hp) as (-> & _). }
  assert (Hw1 : ∀ o', o' ∈ l → entry_of i o' → watched o').
  { intros o' Ho'. apply Hw. by right. }
  destruct (decide (entry_of i o)) as [Hi|Hi].
  - destruct (completes_named _ _ _ _ _ Hi Hex Hp) as [name Hname].
    destruct (process_agent_watched t o c i name Hi Hex Hname) as
      (c1' & Hp' & Hst & _ & Hseen & _); [apply Hw; [by left|done]|].
    rewrite Hp in Hp'. simplify_eq. cbv zeta.
    assert (Hno : ∀ o', o' ∈ l → entry_of i o' → ¬ elsewhere o').
    { intros o' Ho' Hi' [_ Hn]. apply Hn. by apply Hw1. }
    destruct (for_agents_keeps t i _ l _ _ _ Hst Hno H) as [Hkeep _].
    split; [done|]. intros o' name' Ho' Hi' Hname'.
    apply elem_of_cons in Ho' as [->|Ho'].
    + apply for_agents_grows in H as [Hpre _].
      apply (elem_of_prefix _ _ _ Hpre). rewrite Hseen.
      apply elem_of_app. right. rewrite Hname in Hname'. simplify_eq. by left.
    + destruct (IH _ _ Hex1 Hw1 H) as [_ IH2].
      specialize (IH2 o' name' Ho' Hi' Hname'). by rewrite Hst in IH2.
  - assert (same_at i (self c) (self c1)) as [Hsame _].
    { eapply process_agent_idle; [|done]. by left. }
    destruct (IH _ _ Hex1 Hw1 H) as [IH1 IH2]. rewrite Hsame in IH1, IH2.
    split.
    + intros (o' & Ho' & Hi'). apply IH1. exists o'. split; [|done].
      apply elem_of_cons in Ho' as [->|Ho']; done.
    + intros o' name' Ho' Hi' Hname'. apply (IH2 o'); [|done..].
      apply elem_of_cons in Ho' as [->|Ho']; done.
Qed.

(** The same cycle, on the ledger: agent [i] is in it afterwards exactly if
    its live episode was already there or the duration has reached the
    threshold; and when the threshold is reached by an episode not yet in
    the ledger, the alert is sent, for the time since the start. *)
Lemma for_agents_alerts t i l : ∀ c c',
  i ∉ excluded_agents (self c) →
  (∀ o, o ∈ l → entry_of i o → watched o) →
  for_agents t l c = (c', None) →
  (∃ o, o ∈ l ∧ entry_of i o) →
  let started := default t (agent_status_times (self c) !! i) in
  let due := reaches (t - started) (alert_threshold (self c)) in
  let suppressed :=
    is_Some (agent_status_times (self c) !! i) ∧ i ∈ alerted_agents (self c) in
  (i ∈ alerted_agents (self c') ↔ suppressed ∨ due = true) ∧
  (due = true → ¬ suppressed →
     ∃ o name, o ∈ l ∧ entry_of i o ∧ agent_name (fst o) = Some name ∧
       (name, int_seconds (t - started)) ∈ alerts c').
Proof.
  induction l as [|o l IH]; intros c c' Hex Hw H Hsome; simpl in H.
  { destruct Hsome as (o & Ho & _). by apply elem_of_nil in Ho. }
  destruct (process_agent t o c) as [c1 [e1|]] eqn:Hp; [done|].
  destruct (process_agent_config _ _ _ _ _ Hp) as (Hx & Hthr & _).
  assert (Hex1 : i ∉ excluded_agents (self c1)) by by rewrite Hx.
  assert (Hw1 : ∀ o', o' ∈ l → entry_of i o' → watched o').
  { intros o' Ho'. apply Hw. by right. }
  destruct (decide (entry_of i o)) as [Hi|Hi].
  - destruct (completes_named _ _ _ _ _ Hi Hex Hp) as [name Hname].
    destruct (process_agent_watched t o c i name Hi Hex Hname) as
      (c1' & Hp' & Hst & _ & _ & Hal & Hled); [apply Hw; [by left|done]|].
    rewrite Hp in Hp'. simplify_eq. cbv zeta.
    rewrite bool_decide_eq_true in Hled.
    assert (Hno : ∀ o', o' ∈ l → entry_of i o' → ¬ elsewhere o').
    { intros o' Ho' Hi' [_ Hn]. apply Hn. by apply Hw1. }
    destruct (for_agents_keeps t i _ l _ _ _ Hst Hno H) as [_ Hkeep].
    split.
    + split; [|by intros ?; apply Hkeep, Hled].
      destruct (decide (Exists (entry_of i) l)) as [Hl|Hl].
      * apply Exists_exists in Hl.
        destruct (IH _ _ Hex1 Hw1 H Hl) as [IH1 _]. cbv zeta in IH1.
        rewrite Hst, Hthr in IH1. simpl in IH1. rewrite IH1, Hled. tauto.
      * rewrite <- Hled. eapply for_agents_idle with (i:=i) in H as [_ Hsame]; [tauto|].
        apply Forall_forall. intros o' Ho'. left. intros Hi'. apply Hl.
        apply Exists_exists. eauto.
    + intros Hdue Hns. exists o, name. split; [by left|]. do 2 (split; [done|]).
      apply for_agents_grows in H as [_ Hpre]. apply (elem_of_prefix _ _ _ Hpre).
      rewrite Hal, Hdue. rewrite bool_decide_eq_false_2 by done. simpl.
      apply elem_of_app. right. by left.
  - assert (same_at i (self c) (self c1)) as [Hsame Hsame'].
    { eapply process_agent_idle; [|done]. by left. }
    destruct (IH _ _ Hex1 Hw1 H) as [IH1 IH2].
    { destruct Hsome as (o' & Ho' & Hi'). exists o'. split; [|done].
      apply elem_of_cons in Ho' as [->|Ho']; done. }
    cbv zeta in IH1, IH2. rewrite Hsame, Hthr in IH1, IH2. split.
    + rewrite IH1. tauto.
    + intros Hdue Hns. destruct IH2 as (o' & name' & Ho' & Hrest); [done|tauto|].
      exists o', name'. split; [by right|done].
Qed.

(** Without a live episode and outside the ledger, agent [i] stays so as
    long as no record shows it in the watched status. *)
Lemma process_agent_stays_out t o c c' e i :
  agent_status_times (self c) !! i = None →
  i ∉ alerted_agents (self c) →
  (entry_of i o → ¬ watched o) →
  process_agent t o c = (c', e) →
  agent_status_times (self c') !! i = None ∧ i ∉ alerted_agents (self c').
Proof.
  intros Hs Hout Hno H.
  destruct (decide (entry_of i o)) as [Hi|Hi].
  - specialize (Hno Hi).
    destruct (decide (i ∈ excluded_agents (self c))) as [Hex|Hex].
    { rewrite (process_agent_skip t o c i) in H by auto. by simplify_eq. }
    destruct (agent_name (fst o)) as [name|] eqn:Hname.
    2: { unfold process_agent in H. rewrite Hi, Hname in H.
         rewrite decide_False in H by done. by simplify_eq. }
    destruct (decide (unavailable o)) as [Hu|Hu].
    { rewrite (process_agent_skip t o c i) in H by (rewrite ?Hname; eauto).
      by simplify_eq. }
    rewrite (process_agent_elsewhere t o c i name) in H by done.
    simplify_eq. simpl. rewrite lookup_delete_eq. split; [done|]. clear. set_solver.
  - assert (same_at i (self c) (self c')) as [H1 H2].
    { eapply process_agent_idle; [|done]. by left. }
    split; [congruence | tauto].
Qed.

Lemma for_agents_stays_out t i l : ∀ c c' e,
  agent_status_times (self c) !! i = None →
  i ∉ alerted_agents (self c) →
  (∀ o, o ∈ l → entry_of i o → ¬ watched o) →
  for_agents t l c = (c', e) →
  agent_status_times (self c') !! i = None ∧ i ∉ alerted_agents (self c').
Proof.
  induction l as [|o l IH]; intros c c' e Hs Hout Hno H; simpl in H.
  - by simplify_eq.
  - destruct (process_agent t o c) as [c1 [e1|]] eqn:Hp.
    + simplify_eq. eapply process_agent_stays_out; [done..| |done].
      apply Hno. by left.
    + eapply process_agent_stays_out in Hp as [H1 H2];
        [|done..|apply Hno; by left].
      eapply IH; [done..| |done]. intros o' Ho'. apply Hno. by right.
Qed.

(** A cycle that completes and sees agent [i] only in another status ends
    its episode and takes it out of the ledger. *)
Lemma for_agents_elsewhere t i l : ∀ c c',
  i ∉ excluded_agents (self c) →
  (∀ o, o ∈ l → entry_of i o → elsewhere o) →
  for_agents t l c = (c', None) →
  (∃ o, o ∈ l ∧ entry_of i o) →
  agent_status_times (self c') !! i = None ∧ i ∉ alerted_agents (self c').
Proof.
  induction l as [|o l IH]; intros c c' Hex Hel H Hsome; simpl in H.
  { destruct Hsome as (o & Ho & _). by apply elem_of_nil in Ho. }
  destruct (process_agent t o c) as [c1 [e1|]] eqn:Hp; [done|].
  assert (Hex1 : i ∉ excluded_agents (self c1)).
  { by destruct (process_agent_config _ _ _ _ _ Hp) as (-> & _). }
  assert (Hel1 : ∀ o', o' ∈ l → entry_of i o' → elsewhere o').
  { intros o' Ho'. apply Hel. by right. }
  destruct (decide (entry_of i o)) as [Hi|Hi].
  - destruct (completes_named _ _ _ _ _ Hi Hex Hp) as [name Hname].
    assert (Ho : elsewhere o) by (apply Hel; [by left|done]).
    rewrite (process_agent_elsewhere t o c i name) in Hp by done.
    simplify_eq.
    eapply for_agents_stays_out; [| | |done]; simpl.
    + apply lookup_delete_eq.
    + clear. set_solver.
    + intros o' Ho' Hi' Hw. by destruct (Hel1 o' Ho' Hi').
  - eapply IH; [done..|]. destruct Hsome as (o' & Ho' & Hi').
    exists o'. split; [|done]. apply elem_of_cons in Ho' as [->|Ho']; done.
Qed.

(** ** The summary *)

Lemma insert_desc_perm x l : insert_desc x l ≡ₚ x :: l.
Proof.
  induction l as [|y l IH]; simpl; [done|].
  destruct (snd x <? snd y); [|done].
  rewrite IH. apply perm_swap.
Qed.

Lemma sort_desc_perm l : sort_desc l ≡ₚ l.
Proof.
  induction l as [|x l IH]; simpl; [done|].
  unfold sort_desc in *. simpl. by rewrite insert_desc_perm, IH.
Qed.

Lemma elem_of_sort_desc x l : x ∈ sort_desc l ↔ x ∈ l.
Proof. by rewrite sort_desc_perm. Qed.

(** ** One cycle, in terms of its loop *)

Lemma monitor_cycle_loop p m :
  ∃ c e,
    for_agents (now p) (get_agents (users p)) (Cycle m [] []) = (c, e) ∧
    monitor (monitor_cycle p m) = self c ∧
    sent (monitor_cycle p m) = alerts c ∧
    raised (monitor_cycle p m) = e ∧
    (∀ x, x ∈ default [] (summary (monitor_cycle p m)) → x ∈ transfers_only_agents c) ∧
    (get_agents (users p) ≠ [] → e = None →
       summary (monitor_cycle p m) = Some (sort_desc (transfers_only_agents c))).
Proof.
  unfold monitor_cycle. destruct (get_agents (users p)) as [|o l] eqn:Hl.
  - exists (Cycle m [] []), None. simpl. repeat split; try done.
  - destruct (for_agents (now p) (o :: l) (Cycle m [] [])) as [c [e|]] eqn:Hf;
      eexists _, _; (split; [done|]); simpl; repeat split; try done.
    + intros x Hx. by apply elem_of_nil in Hx.
    + intros x Hx. by apply elem_of_sort_desc.
Qed.

Lemma monitor_cycle_config p m :
  excluded_agents (monitor (monitor_cycle p m)) = excluded_agents m ∧
  alert_threshold (monitor (monitor_cycle p m)) = alert_threshold m ∧
  check_interval (monitor (monitor_cycle p m)) = check_interval m.
Proof.
  destruct (monitor_cycle_loop p m) as (c & e & Hf & -> & _).
  by apply for_agents_config in Hf.
Qed.

(** Leaving out records that do nothing changes neither the monitor, nor the
    alerts, nor the exception, nor the entries of the summary. *)
Lemma monitor_cycle_forget p m i :
  (∀ o, o ∈ get_agents (users p) → entry_of i o →
     i ∈ excluded_agents m ∨ (is_Some (agent_name (fst o)) ∧ unavailable o)) →
  monitor (monitor_cycle p m) = monitor (monitor_cycle (forget i p) m) ∧
  sent (monitor_cycle p m) = sent (monitor_cycle (forget i p) m) ∧
  raised (monitor_cycle p m) = raised (monitor_cycle (forget i p) m) ∧
  default [] (summary (monitor_cycle p m)) =
    default [] (summary (monitor_cycle (forget i p) m)).
Proof.
  intros Hall.
  pose proof (for_agents_without (now p) i _ (Cycle m [] []) Hall) as Heq.
  unfold monitor_cycle, forget. simpl.
  destruct (get_agents (users p)) as [|o l] eqn:Hl; [done|].
  rewrite Heq. destruct (without i (o :: l)) as [|o' l'] eqn:Hw; [done|].
  by destruct (for_agents (now p) (o' :: l') (Cycle m [] [])) as [c [e|]].
Qed.

(** ** C1: agents that left the listing *)

(** C1 (as amended): an agent with a live episode that is absent from the
    listing of the cycle keeps its episode, with its start, and its ledger
    membership: the update step never sweeps the tracking map. *)
Theorem absent_agent_unchanged p m i :
  Forall (fun o => ¬ entry_of i o) (get_agents (users p)) →
  same_at i m (monitor (monitor_cycle p m)).
Proof.
  intros Habs. destruct (monitor_cycle_loop p m) as (c & e & Hf & -> & _).
  apply for_agents_idle with (i:=i) in Hf; [done|].
  eapply Forall_impl; [done|]. intros o Ho. by left.
Qed.

Lemma absent_agent_unchanged_witness :
  Forall (fun o => ¬ entry_of 7 o) (get_agents (users (other_poll bob 660))) ∧
  same_at 7 (monitor_after [watched_poll alice 0; watched_poll alice 600] (init ∅))
    (monitor (monitor_cycle (other_poll bob 660)
       (monitor_after [watched_poll alice 0; watched_poll alice 600] (init ∅)))).
Proof.
  split; [compute_done|]. apply absent_agent_unchanged. compute_done.
Defined.

(** C1, as stated, fails: Alice has a live episode and a ledger entry, the
    next listing is fetched and holds only Bob, and after the cycle Alice's
    episode and ledger entry are still there. *)
Lemma absent_agent_not_swept :
  let m := monitor_after [watched_poll alice 0; watched_poll alice 600] (init ∅) in
  let p := other_poll bob 660 in
  agent_status_times m !! 7 = Some 0 ∧
  Forall (fun o => ¬ entry_of 7 o) (get_agents (users p)) ∧
  get_agents (users p) ≠ [] ∧
  ¬ (agent_status_times (monitor (monitor_cycle p m)) !! 7 = None ∧
     7 ∉ alerted_agents (monitor (monitor_cycle p m))).
Proof.
  cbv zeta. repeat split; compute_done.
Qed.

(** ** C2: acknowledgments *)

(** C2 (as amended): the acknowledgment handler leaves the monitor, its
    tracking map and its alerted ledger as they are, for an agent with an
    outstanding ledger entry as for one without; whatever the payload and
    the Slack side do, no exception leaves it. *)
Theorem acknowledgment_leaves_monitor cl body g :
  zendesk_monitor (fst (handle_acknowledgment cl body g)) = zendesk_monitor g ∧
  snd (handle_acknowledgment cl body g) = None.
Proof.
  unfold handle_acknowledgment.
  by destruct (acknowledge_block cl body (slack_calls g)) as [calls [e|[]]].
Qed.

(** C2, as stated, fails: Alice's alert has been sent and she is in the
    ledger; the button of that alert is clicked and the handler runs to its
    end without an error; she is still in the ledger. *)
Lemma acknowledgment_keeps_ledger_entry :
  let g := run [Tick (watched_poll alice 0); Tick (watched_poll alice 600)] (start ∅) in
  let g' := fst (handle_acknowledgment slack_up alice_click g) in
  7 ∈ alerted_agents (zendesk_monitor g) ∧
  error_log g' = [] ∧
  slack_calls g' = [Ack; ChatPostMessage "C1" "1700000000.000100" "U1";
                    ChatUpdate "C1" "1700000000.000100" "Alice"] ∧
  ¬ (7 ∉ alerted_agents (zendesk_monitor g')).
Proof. cbv zeta. repeat split; compute_done. Qed.

(** ** C3: records without their keys *)

(** The loop body raises exactly on a record that lacks a key it
    subscripts, and then leaves the cycle as it was. *)
Lemma process_agent_completes_iff t o c c' e :
  process_agent t o c = (c', e) →
  (e = None ↔ well_formed (excluded_agents (self c)) o) ∧
  (e ≠ None → c' = c ∧ ∃ key, e = Some (KeyError key)).
Proof.
  unfold well_formed. intros H. process_cases.
  all: split; [|first [done | intros _; split; eauto]].
  all: split; [intros ?; first [done | eauto]|].
  all: first [done | intros [?|[? ?]]; done].
Qed.

Lemma for_agents_completes_iff t l : ∀ c c' e,
  for_agents t l c = (c', e) →
  (e = None ↔ Forall (well_formed (excluded_agents (self c))) l).
Proof.
  induction l as [|o l IH]; intros c c' e H; simpl in H.
  - by simplify_eq.
  - rewrite Forall_cons.
    destruct (process_agent t o c) as [c1 [e1|]] eqn:Hp.
    + simplify_eq. apply process_agent_completes_iff in Hp as [Hp _].
      split; [done|]. intros [Ho _]. by apply Hp in Ho.
    + destruct (process_agent_config _ _ _ _ _ Hp) as (Hx & _).
      apply process_agent_completes_iff in Hp as [Hp _].
      apply IH in H. rewrite Hx in H. rewrite H. tauto.
Qed.

Lemma monitor_cycle_completes_iff p m :
  raised (monitor_cycle p m) = None ↔
  Forall (well_formed (excluded_agents m)) (get_agents (users p)).
Proof.
  destruct (monitor_cycle_loop p m) as (c & e & Hf & _ & _ & -> & _).
  by apply for_agents_completes_iff in Hf.
Qed.

(** C3 (as amended): when every record of every listing has the keys the
    loop subscripts ([id], and [name] unless the agent is excluded), whatever
    the availability lookups answer, no cycle raises and the loop runs every
    poll it is offered. *)
Theorem well_formed_listings_complete polls m :
  Forall (fun p => Forall (well_formed (excluded_agents m)) (get_agents (users p))) polls →
  Forall (fun r => raised r = None) (monitor_agents polls m) ∧
  length (monitor_agents polls m) = length polls.
Proof.
  revert m. induction polls as [|p polls IH]; intros m Hall; simpl; [done|].
  apply Forall_cons in Hall as [Hp Hall].
  apply monitor_cycle_completes_iff in Hp as Hok. rewrite Hok.
  destruct (IH (monitor (monitor_cycle p m))) as [IH1 IH2].
  { by destruct (monitor_cycle_config p m) as (-> & _). }
  split; [by constructor | by rewrite IH2].
Qed.

Lemma well_formed_listings_complete_witness :
  let polls := [watched_poll alice 0;
                Poll (60 * microseconds) (Body (Some [(alice, Body None); (bob, online)]))] in
  Forall (fun p => Forall (well_formed (excluded_agents (init ∅))) (get_agents (users p))) polls ∧
  length (monitor_agents polls (init ∅)) = length polls.
Proof.
  cbv zeta. split; [compute_done|].
  refine (proj2 (well_formed_listings_complete _ (init ∅) _)). compute_done.
Defined.

(** C3, as stated, fails: the first record of the listing has no [id]; the
    cycle raises the [KeyError], Bob's record after it is not processed (it
    would have started an episode), and the loop does not run the next
    poll. *)
Lemma malformed_record_ends_loop :
  let p := Poll 0 (Body (Some [(anonymous, transfers_only); (bob, transfers_only)])) in
  let p' := Poll 0 (Body (Some [(bob, transfers_only)])) in
  raised (monitor_cycle p (init ∅)) = Some (KeyError "id") ∧
  agent_status_times (monitor (monitor_cycle p (init ∅))) !! 8 = None ∧
  agent_status_times (monitor (monitor_cycle p' (init ∅))) !! 8 = Some 0 ∧
  monitor_agents [p; watched_poll bob 60] (init ∅) = [monitor_cycle p (init ∅)].
Proof. cbv zeta. repeat split; compute_done. Qed.

(** ** C4: a fetch that fails *)

(** With an empty listing the cycle does nothing: for a failed request, a
    body without [users], or no user at all. *)
Lemma empty_listing_skipped p m :
  get_agents (users p) = [] → monitor_cycle p m = Report m None [] None.
Proof. unfold monitor_cycle. by intros ->. Qed.

(** C4: a cycle whose fetch fails, so that [get_agents] has no data, is
    skipped: it leaves the monitor (tracking map and ledger) as it was,
    prints and sends nothing and raises nothing; the cycles after it run
    exactly as they would from the state before the failure; and a later
    poll that sees an agent in the watched status reports the time since the
    start its episode had before the failure. *)
Theorem failed_fetch_skips_cycle p m :
  get_agents (users p) = [] →
  monitor_cycle p m = Report m None [] None ∧
  (∀ polls,
     monitor_agents (p :: polls) m = Report m None [] None :: monitor_agents polls m ∧
     monitor_after (p :: polls) m = monitor_after polls m) ∧
  (∀ q i s o name,
     agent_status_times m !! i = Some s →
     i ∉ excluded_agents m →
     Forall (fun o => entry_of i o → watched o) (get_agents (users q)) →
     raised (monitor_cycle q m) = None →
     o ∈ get_agents (users q) → entry_of i o → agent_name (fst o) = Some name →
     (name, now q - s) ∈
       default [] (summary (monitor_cycle q (monitor (monitor_cycle p m))))).
Proof.
  intros Hfail. pose proof (empty_listing_skipped p m Hfail) as Hskip.
  split; [done|]. split; [by intros polls; simpl; rewrite Hskip|].
  intros q i s o name Hs Hex Hall Hok Ho Hi Hname. rewrite Hskip. simpl.
  destruct (monitor_cycle_loop q m) as (c & e & Hf & _ & _ & He & _ & Hsum).
  rewrite Hok in He. subst e.
  rewrite Hsum; [|by intros Hnil; rewrite Hnil in Ho; inversion Ho|done].
  simpl. apply elem_of_sort_desc.
  rewrite Forall_forall in Hall.
  destruct (for_agents_watched (now q) i _ (Cycle m [] []) c Hex Hall Hf) as [_ Hrep].
  specialize (Hrep o name Ho Hi Hname). simpl in Hrep. by rewrite Hs in Hrep.
Qed.

Lemma failed_fetch_skips_cycle_witness :
  let m := monitor_after [watched_poll alice 0; watched_poll alice 600] (init ∅) in
  let p := Poll (660 * microseconds) RequestException in
  get_agents (users p) = [] ∧
  monitor_cycle p m = Report m None [] None ∧
  ("Alice"%string, 720 * microseconds) ∈
    default [] (summary (monitor_cycle (watched_poll alice 720) (monitor (monitor_cycle p m)))).
Proof.
  cbv zeta. split; [done|].
  destruct (failed_fetch_skips_cycle (Poll (660 * microseconds) RequestException)
              (monitor_after [watched_poll alice 0; watched_poll alice 600] (init ∅)) eq_refl)
    as (H1 & _ & H3).
  split; [exact H1|].
  refine (H3 (watched_poll alice 720) 7 0 (alice, transfers_only) "Alice"%string _ _ _ _ _ _ _);
    compute_done.
Defined.

(** ** C5: one alert per episode *)

Lemma process_agent_silent t o c i s :
  agent_status_times (self c) !! i = Some s →
  i ∈ alerted_agents (self c) →
  entry_of i o →
  is_Some (agent_name (fst o)) →
  ¬ elsewhere o →
  ∃ seen', process_agent t o c = (Cycle (self c) seen' (alerts c), None).
Proof.
  intros Hs Hin Hi [name Hname] Hno.
  destruct (decide (i ∈ excluded_agents (self c))) as [Hex|Hex].
  { exists (transfers_only_agents c). rewrite (process_agent_skip t o c i) by auto.
    by destruct c. }
  destruct (decide (unavailable o)) as [Hu|Hu].
  { exists (transfers_only_agents c).
    rewrite (process_agent_skip t o c i) by (rewrite ?Hname; eauto). by destruct c. }
  destruct (decide (watched o)) as [Hw|Hw]; [|by destruct Hno].
  pose proof (watched_truthy _ Hw) as Htr. unfold watched in Hw.
  unfold process_agent, send_slack_alert. rewrite Hi, Hname, Htr. cbv zeta.
  rewrite decide_False by done. rewrite decide_True by done. rewrite Hs.
  rewrite (bool_decide_eq_false_2 (i ∉ _)) by tauto. rewrite andb_false_r. eauto.
Qed.

Lemma process_agent_seen_irrelevant t o c1 c2 c1' e :
  self c1 = self c2 →
  alerts c1 = alerts c2 →
  process_agent t o c1 = (c1', e) →
  ∃ c2', process_agent t o c2 = (c2', e) ∧
    self c1' = self c2' ∧ alerts c1' = alerts c2'.
Proof.
  destruct c1 as [m seen1 al], c2 as [m2 seen2 al2]. simpl. intros <- <- H.
  unfold process_agent, send_slack_alert in *. simpl in *.
  repeat case_match; simplify_eq/=; eauto.
Qed.

Lemma for_agents_silent t i s l : ∀ c1 c2 c1' e,
  self c1 = self c2 →
  alerts c1 = alerts c2 →
  agent_status_times (self c1) !! i = Some s →
  i ∈ alerted_agents (self c1) →
  (∀ o, o ∈ l → entry_of i o → is_Some (agent_name (fst o)) ∧ ¬ elsewhere o) →
  for_agents t l c1 = (c1', e) →
  ∃ c2', for_agents t (without i l) c2 = (c2', e) ∧
    self c1' = self c2' ∧ alerts c1' = alerts c2'.
Proof.
  induction l as [|o l IH]; intros c1 c2 c1' e Hself Hal Hs Hin Hall H; simpl in H.
  { simplify_eq. by exists c2. }
  assert (Hall' : ∀ o', o' ∈ l → entry_of i o' →
                    is_Some (agent_name (fst o')) ∧ ¬ elsewhere o').
  { intros o' Ho'. apply Hall. by right. }
  destruct (decide (entry_of i o)) as [Hi|Hi].
  - rewrite without_cons_entry by done.
    destruct (Hall o) as [Hname Hno]; [by left|done|].
    destruct (process_agent_silent t o c1 i s Hs Hin Hi Hname Hno) as [seen' Hp].
    rewrite Hp in H. by eapply IH in H.
  - rewrite without_cons_other by done. simpl.
    destruct (process_agent t o c1) as [c1a e1] eqn:Hp.
    destruct (process_agent_seen_irrelevant _ _ _ c2 _ _ Hself Hal Hp)
      as (c2a & -> & Hself' & Hal').
    destruct e1 as [e1|]; [simplify_eq; eauto|].
    eapply process_agent_keeps in Hp as [Hs' Hin']; [|done|done].
    eapply IH in H; eauto.
Qed.

(** While agent [i] has a live episode and is in the ledger, the records of
    [i] that do not show another status send nothing and change nothing in
    the monitor: the cycle is, but for its summary, the cycle of the listing
    without them. *)
Lemma monitor_cycle_silent p m i s :
  agent_status_times m !! i = Some s →
  i ∈ alerted_agents m →
  Forall (fun o => entry_of i o → is_Some (agent_name (fst o)) ∧ ¬ elsewhere o)
         (get_agents (users p)) →
  monitor (monitor_cycle p m) = monitor (monitor_cycle (forget i p) m) ∧
  sent (monitor_cycle p m) = sent (monitor_cycle (forget i p) m) ∧
  raised (monitor_cycle p m) = raised (monitor_cycle (forget i p) m).
Proof.
  intros Hs Hin Hall. rewrite Forall_forall in Hall.
  unfold monitor_cycle, forget. simpl.
  destruct (get_agents (users p)) as [|o l] eqn:Hl; [done|].
  destruct (for_agents (now p) (o :: l) (Cycle m [] [])) as [c1' e] eqn:Hf.
  destruct (for_agents_silent (now p) i s (o :: l) (Cycle m [] []) (Cycle m [] []) c1' e
              eq_refl eq_refl Hs Hin Hall Hf) as (c2' & Hf2 & Hself & Hal).
  destruct (without i (o :: l)) as [|o' l'] eqn:Hw.
  - simpl in Hf2. simplify_eq. simpl in *. by destruct c1'; simplify_eq/=.
  - rewrite Hf2. by destruct e; simpl.
Qed.


Lemma transfers_only_watched a : watched (a, transfers_only).
Proof. unfold watched, transfers_only. simpl. apply lookup_singleton_eq. Qed.

Lemma online_elsewhere a : elsewhere (a, online).
Proof.
  unfold elsewhere, unavailable, watched, online. simpl. split.
  - intros H. by apply (f_equal (fun (d : gmap string json) => d !! "agent_state"%string)) in H.
  - by rewrite lookup_singleton_eq.
Qed.

(** A cycle whose listing is one agent, in the watched status. *)
Lemma watched_poll_cycle i name t m :
  i ∉ excluded_agents m →
  let started := default (t * microseconds) (agent_status_times m !! i) in
  let d := t * microseconds - started in
  let due := reaches d (alert_threshold m) in
  let suppressed :=
    bool_decide (is_Some (agent_status_times m !! i) ∧ i ∈ alerted_agents m) in
  ∃ m',
    monitor_cycle (watched_poll (Agent (Some i) (Some name)) t) m =
      Report m' (Some [(name, d)])
             (if due && negb suppressed then [(name, int_seconds d)] else []) None ∧
    agent_status_times m' !! i = Some started ∧
    (i ∈ alerted_agents m' ↔ suppressed = true ∨ due = true).
Proof.
  intros Hex.
  destruct (process_agent_watched (t * microseconds)
              (Agent (Some i) (Some name), transfers_only) (Cycle m [] []) i name)
    as (c & Hp & Hst & _ & Hseen & Hal & Hled);
    [done..|apply transfers_only_watched|].
  simpl in *. exists (self c). unfold monitor_cycle. simpl.
  change (for_agents _ _ _) with
    (match process_agent (t * microseconds)
             (Agent (Some i) (Some name), transfers_only) (Cycle m [] []) with
     | (c', None) => (c', None)
     | (c', Some e) => (c', Some e)
     end).
  rewrite Hp, Hseen, Hal. unfold sort_desc. simpl.
  split; [done|]. split; [done|]. apply Hled.
Qed.

Lemma int_seconds_whole t : int_seconds (t * microseconds) = t.
Proof. unfold int_seconds, microseconds. by apply Z.quot_mul. Qed.

(** The scenario from its [k]-th poll on: before it the episode, if begun,
    started at second 0, and the agent is in the ledger exactly if the poll
    of second 600 is past. *)
Lemma scenario_from i name n : ∀ (k : nat) m,
  alert_threshold m = 600 →
  i ∉ excluded_agents m →
  agent_status_times m !! i = (if k is O then None else Some 0) →
  (i ∈ alerted_agents m ↔ (10 < k)%nat) →
  map sent (monitor_agents
              (map (fun j => watched_poll (Agent (Some i) (Some name)) (Z.of_nat j * 60))
                   (seq k n)) m)
  = map (fun j => if decide (j = 10%nat) then [(name, 600)] else []) (seq k n).
Proof.
  induction n as [|n IH]; intros k m Hthr Hex Hst Hled; [done|].
  simpl seq. simpl map. simpl monitor_agents.
  destruct (watched_poll_cycle i name (Z.of_nat k * 60) m Hex)
    as (m' & Hr & Hst' & Hled').
  destruct (monitor_cycle_config (watched_poll (Agent (Some i) (Some name)) (Z.of_nat k * 60)) m)
    as (Hx & Hthr' & _).
  rewrite Hr in *. simpl in Hx, Hthr'. simpl. clear Hr.
  assert (Hstart : default (Z.of_nat k * 60 * microseconds) (agent_status_times m !! i) = 0).
  { rewrite Hst. destruct k; [simpl; unfold microseconds; lia | done]. }
  rewrite Hstart, Z.sub_0_r, Hthr in *.
  assert (Hdue : reaches (Z.of_nat k * 60 * microseconds) 600 = true ↔ (10 ≤ k)%nat).
  { unfold reaches, microseconds. rewrite Z.leb_le. lia. }
  assert (Hsup : bool_decide (is_Some (agent_status_times m !! i) ∧ i ∈ alerted_agents m) = true
                 ↔ (10 < k)%nat).
  { rewrite bool_decide_eq_true, Hled, Hst.
    destruct k; (split; [tauto|]); [lia | eauto]. }
  f_equal.
  - destruct (decide (k = 10%nat)) as [->|Hk].
    + rewrite (proj2 Hdue) by lia.
      destruct (bool_decide _); [destruct Hsup as [Hs _]; specialize (Hs eq_refl); lia|].
      simpl. by rewrite int_seconds_whole.
    + destruct (reaches _ _); [|done].
      destruct (bool_decide _); [done|].
      destruct Hdue as [Hd _], Hsup as [_ Hs]. specialize (Hd eq_refl).
      assert (10 < k)%nat as Hlt by lia. by apply Hs in Hlt.
  - apply IH; [congruence | by rewrite Hx | done |].
    rewrite Hled', Hsup, Hdue. lia.
Qed.

(** C5: at most one alert per episode.  In the scenario: agent A enters the
    watched status at second 0 and stays in it, the monitor polls every
    [check_interval] = 60 seconds with the threshold of [__init__], 600
    seconds; over any number of polls, the cycle of second 600 (the
    eleventh) sends the alert for A, with duration 600, and every other
    cycle, before and after, sends none.  In general: once an agent with a
    live episode is in the ledger, a cycle whose records of that agent do not
    show another status sends exactly the alerts it would send without these
    records, and the agent keeps its start and its ledger entry. *)
Theorem one_alert_per_episode excluded i name :
  i ∉ excluded →
  (∀ n,
     map sent (monitor_agents
                 (watched_polls (check_interval (init excluded))
                    (Agent (Some i) (Some name)) n)
                 (init excluded))
     = map (fun k => if decide (k = 10%nat) then [(name, 600)] else []) (seq 0 n)) ∧
  (∀ m p s,
     agent_status_times m !! i = Some s →
     i ∈ alerted_agents m →
     Forall (fun o => entry_of i o → is_Some (agent_name (fst o)) ∧ ¬ elsewhere o)
            (get_agents (users p)) →
     sent (monitor_cycle p m) = sent (monitor_cycle (forget i p) m) ∧
     agent_status_times (monitor (monitor_cycle p m)) !! i = Some s ∧
     i ∈ alerted_agents (monitor (monitor_cycle p m))).
Proof.
  intros Hex. split.
  - intros n. apply (scenario_from i name n 0 (init excluded)); try done.
    simpl. split; [set_solver | lia].
  - intros m p s Hs Hin Hall.
    destruct (monitor_cycle_silent p m i s Hs Hin Hall) as (_ & Hsent & _).
    split; [done|].
    destruct (monitor_cycle_loop p m) as (c & e & Hf & -> & _).
    apply (for_agents_keeps _ i s) in Hf as [H1 H2]; [by auto|done|].
    rewrite Forall_forall in Hall. intros o Ho Hi. by destruct (Hall o Ho Hi).
Qed.

Lemma one_alert_per_episode_witness :
  map sent (monitor_agents (watched_polls 60 alice 13) (init ∅)) =
    [[]; []; []; []; []; []; []; []; []; []; [("Alice"%string, 600)]; []; []].
Proof.
  refine (proj1 (one_alert_per_episode ∅ 7 "Alice" _) 13%nat). compute_done.
Defined.

(** ** C6: the start of an episode is fixed *)

(** A cycle that completes and sees agent [i] only in the watched status,
    read off its report. *)
Lemma monitor_cycle_watched p m i :
  i ∉ excluded_agents m →
  seen watched i p →
  raised (monitor_cycle p m) = None →
  let started := default (now p) (agent_status_times m !! i) in
  let due := reaches (now p - started) (alert_threshold m) in
  let suppressed := is_Some (agent_status_times m !! i) ∧ i ∈ alerted_agents m in
  agent_status_times (monitor (monitor_cycle p m)) !! i = Some started ∧
  (∀ o name, o ∈ get_agents (users p) → entry_of i o → agent_name (fst o) = Some name →
     (name, now p - started) ∈ default [] (summary (monitor_cycle p m))) ∧
  (i ∈ alerted_agents (monitor (monitor_cycle p m)) ↔ suppressed ∨ due = true) ∧
  (due = true → ¬ suppressed →
     ∃ o name, o ∈ get_agents (users p) ∧ entry_of i o ∧ agent_name (fst o) = Some name ∧
       (name, int_seconds (now p - started)) ∈ sent (monitor_cycle p m)).
Proof.
  intros Hex [Hsome Hall] Hok.
  destruct (monitor_cycle_loop p m) as (c & e & Hf & Hm & Hs & He & _ & Hsum).
  rewrite Hok in He. subst e. rewrite Hm, Hs.
  rewrite Forall_forall in Hall. apply Exists_exists in Hsome.
  rewrite Hsum; [|by intros Hnil; rewrite Hnil in Hsome; destruct Hsome as (? & []%elem_of_nil & _)|done].
  destruct (for_agents_watched (now p) i _ (Cycle m [] []) c Hex Hall Hf) as [H1 H2].
  destruct (for_agents_alerts (now p) i _ (Cycle m [] []) c Hex Hall Hf Hsome) as [H3 H4].
  simpl in *. split; [by apply H1|]. split; [|by split].
  intros o name Ho Hi Hname. apply elem_of_sort_desc. by eapply H2.
Qed.

Lemma well_formed_completes p m :
  Forall (well_formed (excluded_agents m)) (get_agents (users p)) →
  raised (monitor_cycle p m) = None.
Proof. apply monitor_cycle_completes_iff. Qed.

(** A live episode through polls that all see the agent in the watched
    status: the start stays, and each poll reports the time since it. *)
Lemma live_episode_watched i s polls : ∀ m,
  i ∉ excluded_agents m →
  agent_status_times m !! i = Some s →
  Forall (seen watched i) polls →
  Forall (fun p => Forall (well_formed (excluded_agents m)) (get_agents (users p))) polls →
  agent_status_times (monitor_after polls m) !! i = Some s ∧
  Forall2 (fun p r =>
             ∀ o name, o ∈ get_agents (users p) → entry_of i o →
               agent_name (fst o) = Some name →
               (name, now p - s) ∈ default [] (summary r))
          polls (monitor_agents polls m).
Proof.
  induction polls as [|p polls IH]; intros m Hex Hs Hseen Hwf; simpl; [by split|].
  apply Forall_cons in Hseen as [Hp Hseen]. apply Forall_cons in Hwf as [Hok Hwf].
  apply well_formed_completes in Hok.
  destruct (monitor_cycle_watched p m i Hex Hp Hok) as (H1 & H2 & _).
  rewrite Hs in H1, H2. simpl in H1, H2. rewrite Hok.
  destruct (monitor_cycle_config p m) as (Hx & _).
  destruct (IH (monitor (monitor_cycle p m))) as [IH1 IH2]; rewrite ?Hx; try done.
  split; [done|]. by constructor.
Qed.

(** C6 (as amended): over polls that each see a non-excluded agent [i] in
    the watched status, in listings whose records have their keys, the
    start recorded for [i] after the first of these polls is the start of
    the episode [i] already had when the run began (one kept through a
    listing without [i] or a lookup that gave nothing), and the time of that
    first poll only if [i] had none; it is still that after every later poll
    of the run, however many follow; and each poll reports for [i] the
    duration from that start to its own time. *)
Theorem started_at_fixed_while_watched p0 polls m i :
  i ∉ excluded_agents m →
  Forall (seen watched i) (p0 :: polls) →
  Forall (fun p => Forall (well_formed (excluded_agents m)) (get_agents (users p)))
         (p0 :: polls) →
  let started := default (now p0) (agent_status_times m !! i) in
  agent_status_times (monitor (monitor_cycle p0 m)) !! i = Some started ∧
  (∀ n, agent_status_times (monitor_after (p0 :: take n polls) m) !! i = Some started) ∧
  agent_status_times (monitor_after (p0 :: polls) m) !! i = Some started ∧
  Forall2 (fun p r =>
             ∀ o name, o ∈ get_agents (users p) → entry_of i o →
               agent_name (fst o) = Some name →
               (name, now p - started) ∈ default [] (summary r))
          (p0 :: polls) (monitor_agents (p0 :: polls) m).
Proof.
  intros Hex Hseen Hwf started.
  apply Forall_cons in Hseen as [Hp Hseen]. apply Forall_cons in Hwf as [Hok Hwf].
  apply well_formed_completes in Hok.
  destruct (monitor_cycle_watched p0 m i Hex Hp Hok) as (H1 & H2 & _).
  fold started in H1, H2. simpl. rewrite Hok.
  destruct (monitor_cycle_config p0 m) as (Hx & _).
  assert (Hlater : ∀ ps, Forall (seen watched i) ps →
            Forall (fun p => Forall (well_formed (excluded_agents m)) (get_agents (users p))) ps →
            agent_status_times (monitor_after ps (monitor (monitor_cycle p0 m))) !! i
              = Some started ∧
            Forall2 (fun p r =>
                       ∀ o name, o ∈ get_agents (users p) → entry_of i o →
                         agent_name (fst o) = Some name →
                         (name, now p - started) ∈ default [] (summary r))
                    ps (monitor_agents ps (monitor (monitor_cycle p0 m)))).
  { intros ps Hps Hwfps.
    apply (live_episode_watched i started ps (monitor (monitor_cycle p0 m)));
      rewrite ?Hx; done. }
  split; [done|]. split; [|split].
  - intros n. apply Hlater; by apply Forall_take.
  - by apply Hlater.
  - constructor; [done|]. by apply Hlater.
Qed.

Lemma started_at_fixed_while_watched_witness :
  let before := [watched_poll alice 0; other_poll bob 60] in
  let polls := [Poll (180 * microseconds) (Body (Some [(bob, online); (alice, transfers_only)]));
                watched_poll alice 240] in
  agent_status_times (monitor_after before (init ∅)) !! 7 = Some 0 ∧
  agent_status_times
    (monitor_after (watched_poll alice 120 :: polls) (monitor_after before (init ∅))) !! 7 =
    Some 0 ∧
  agent_status_times (monitor_after (watched_poll alice 60 :: polls) (init ∅)) !! 7 =
    Some (now (watched_poll alice 60)).
Proof.
  cbv zeta. split; [compute_done|]. split.
  - refine (proj1 (proj2 (proj2 (started_at_fixed_while_watched (watched_poll alice 120) _
                                   (monitor_after [watched_poll alice 0; other_poll bob 60]
                                      (init ∅)) 7 _ _ _))));
      compute_done.
  - refine (proj1 (proj2 (proj2 (started_at_fixed_while_watched (watched_poll alice 60) _
                                   (init ∅) 7 _ _ _))));
      compute_done.
Defined.

(** C6, as stated, fails: Alice is seen in the watched status at second 0,
    the listing of second 60 is fetched and holds only Bob, and from second
    120 on every poll sees Alice in the watched status again.  The start
    recorded for her after the first poll of that unbroken run is second 0,
    not the time of that poll, and the poll reports 120 seconds for her, not
    zero. *)
Lemma kept_episode_starts_before_run :
  let m := monitor_after [watched_poll alice 0; other_poll bob 60] (init ∅) in
  let p0 := watched_poll alice 120 in
  let run := [p0; watched_poll alice 180] in
  ¬ seen watched 7 (other_poll bob 60) ∧
  Forall (seen watched 7) run ∧
  agent_status_times (monitor (monitor_cycle p0 m)) !! 7 = Some 0 ∧
  agent_status_times (monitor (monitor_cycle p0 m)) !! 7 ≠ Some (now p0) ∧
  summary (monitor_cycle p0 m) = Some [("Alice"%string, 120 * microseconds)] ∧
  agent_status_times (monitor_after run m) !! 7 = Some 0.
Proof.
  cbv zeta. repeat split; compute_done.
Qed.

(** ** C7: a new episode after another status *)

(** A cycle that completes and sees agent [i] only in another status, read
    off its report. *)
Lemma monitor_cycle_elsewhere p m i :
  i ∉ excluded_agents m →
  seen elsewhere i p →
  raised (monitor_cycle p m) = None →
  agent_status_times (monitor (monitor_cycle p m)) !! i = None ∧
  i ∉ alerted_agents (monitor (monitor_cycle p m)).
Proof.
  intros Hex [Hsome Hall] Hok.
  destruct (monitor_cycle_loop p m) as (c & e & Hf & -> & _ & He & _).
  rewrite Hok in He. subst e.
  rewrite Forall_forall in Hall. apply Exists_exists in Hsome.
  by apply (for_agents_elsewhere (now p) i (get_agents (users p)) (Cycle m [] []) c).
Qed.

(** A live episode outside the ledger, through polls that all see the agent
    in the watched status before the threshold: nothing changes for it. *)
Lemma live_episode_quiet i s polls : ∀ m,
  i ∉ excluded_agents m →
  agent_status_times m !! i = Some s →
  i ∉ alerted_agents m →
  Forall (seen watched i) polls →
  Forall (fun p => Forall (well_formed (excluded_agents m)) (get_agents (users p))) polls →
  Forall (fun p => reaches (now p - s) (alert_threshold m) = false) polls →
  agent_status_times (monitor_after polls m) !! i = Some s ∧
  (i ∉ alerted_agents (monitor_after polls m)) ∧
  excluded_agents (monitor_after polls m) = excluded_agents m ∧
  alert_threshold (monitor_after polls m) = alert_threshold m.
Proof.
  induction polls as [|p polls IH]; intros m Hex Hs Hout Hseen Hwf Hearly; simpl; [done|].
  apply Forall_cons in Hseen as [Hp Hseen]. apply Forall_cons in Hwf as [Hok Hwf].
  apply Forall_cons in Hearly as [Hnot Hearly].
  apply well_formed_completes in Hok.
  destruct (monitor_cycle_watched p m i Hex Hp Hok) as (H1 & _ & H3 & _).
  rewrite Hs in H1, H3. simpl in H1, H3. rewrite Hok.
  destruct (monitor_cycle_config p m) as (Hx & Hthr & _).
  destruct (IH (monitor (monitor_cycle p m))) as (IH1 & IH2 & IH3 & IH4);
    rewrite ?Hx, ?Hthr; try done.
  - rewrite H3, Hnot. intros [[_ ?]|?]; done.
  - repeat split; congruence.
Qed.

(** C7: whatever the monitor holds for agent [i], a poll that sees [i] in
    another status ends its episode and takes it out of the ledger; the next
    poll that sees it in the watched status starts an episode at its own
    time, outside the ledger; while the following polls see it in the
    watched status before the threshold is reached, that start and the
    ledger stay; and the poll at which the duration from that start reaches
    the threshold sends the alert for [i], with that duration, and enters
    [i] into the ledger. *)
Theorem new_episode_after_other m p1 p2 mid p3 i :
  i ∉ excluded_agents m →
  0 < alert_threshold m →
  seen elsewhere i p1 →
  Forall (seen watched i) (p2 :: mid ++ [p3]) →
  Forall (fun p => Forall (well_formed (excluded_agents m)) (get_agents (users p)))
         (p1 :: p2 :: mid ++ [p3]) →
  Forall (fun p => reaches (now p - now p2) (alert_threshold m) = false) mid →
  reaches (now p3 - now p2) (alert_threshold m) = true →
  let m1 := monitor (monitor_cycle p1 m) in
  let m2 := monitor (monitor_cycle p2 m1) in
  let m3 := monitor_after mid m2 in
  (agent_status_times m1 !! i = None ∧ i ∉ alerted_agents m1) ∧
  (agent_status_times m2 !! i = Some (now p2) ∧ i ∉ alerted_agents m2) ∧
  (agent_status_times m3 !! i = Some (now p2) ∧ i ∉ alerted_agents m3) ∧
  (agent_status_times (monitor (monitor_cycle p3 m3)) !! i = Some (now p2) ∧
   i ∈ alerted_agents (monitor (monitor_cycle p3 m3)) ∧
   ∃ o name, o ∈ get_agents (users p3) ∧ entry_of i o ∧ agent_name (fst o) = Some name ∧
     (name, int_seconds (now p3 - now p2)) ∈ sent (monitor_cycle p3 m3)).
Proof.
  intros Hex Hthr Hp1 Hseen Hwf Hearly Hdue m1 m2 m3.
  apply Forall_cons in Hseen as [Hp2 Hseen]. apply Forall_app in Hseen as [Hmid Hp3].
  apply Forall_cons in Hwf as [Hok1 Hwf]. apply Forall_cons in Hwf as [Hok2 Hwf].
  apply Forall_app in Hwf as [Hwf Hok3].
  rewrite Forall_singleton in Hp3. rewrite Forall_singleton in Hok3.
  destruct (monitor_cycle_config p1 m) as (Hx1 & Ht1 & _). fold m1 in Hx1, Ht1.
  destruct (monitor_cycle_config p2 m1) as (Hx2 & Ht2 & _). fold m2 in Hx2, Ht2.
  (* the poll that sees another status *)
  apply well_formed_completes in Hok1.
  destruct (monitor_cycle_elsewhere p1 m i Hex Hp1 Hok1) as [Hs1 Hout1].
  fold m1 in Hs1, Hout1.
  (* the poll that starts the new episode *)
  rewrite <- Hx1 in Hok2. apply well_formed_completes in Hok2.
  assert (Hex1 : i ∉ excluded_agents m1) by by rewrite Hx1.
  destruct (monitor_cycle_watched p2 m1 i Hex1 Hp2 Hok2) as (Hs2 & _ & Hled2 & _).
  fold m2 in Hs2, Hled2. rewrite Hs1 in Hs2, Hled2. simpl in Hs2, Hled2.
  assert (Hout2 : i ∉ alerted_agents m2).
  { rewrite Hled2, Z.sub_diag, Ht1. unfold reaches, microseconds.
    intros [[[] _]|Hr]; [done|]. apply Z.leb_le in Hr. lia. }
  (* the polls before the threshold *)
  assert (Hex2 : i ∉ excluded_agents m2) by by rewrite Hx2, Hx1.
  destruct (live_episode_quiet i (now p2) mid m2) as (Hs3 & Hout3 & Hx3 & Ht3);
    rewrite ?Hx2, ?Hx1, ?Ht2, ?Ht1; try done.
  fold m3 in Hs3, Hout3, Hx3, Ht3.
  (* the poll that reaches it *)
  assert (Hex3 : i ∉ excluded_agents m3) by by rewrite Hx3.
  rewrite <- Hx1, <- Hx2, <- Hx3 in Hok3. apply well_formed_completes in Hok3.
  destruct (monitor_cycle_watched p3 m3 i Hex3 Hp3 Hok3) as (Hs4 & _ & Hled4 & Hal4).
  rewrite Hs3 in Hs4, Hled4, Hal4. simpl in Hs4, Hled4, Hal4.
  rewrite Ht3, Ht2, Ht1 in Hled4, Hal4.
  repeat split; try done.
  - apply Hled4. by right.
  - apply Hal4; [done|]. by intros [_ ?].
Qed.

Lemma new_episode_after_other_witness :
  let m := monitor_after [watched_poll alice 0; watched_poll alice 600] (init ∅) in
  let m3 := monitor_after [other_poll alice 650; watched_poll alice 700;
                           watched_poll alice 760] m in
  7 ∈ alerted_agents m ∧
  agent_status_times m3 !! 7 = Some (now (watched_poll alice 700)) ∧
  ∃ o name, o ∈ get_agents (users (watched_poll alice 1300)) ∧ entry_of 7 o ∧
    agent_name (fst o) = Some name ∧
    (name, int_seconds (now (watched_poll alice 1300) - now (watched_poll alice 700)))
      ∈ sent (monitor_cycle (watched_poll alice 1300) m3).
Proof.
  cbv zeta. split; [compute_done|].
  destruct (new_episode_after_other
              (monitor_after [watched_poll alice 0; watched_poll alice 600] (init ∅))
              (other_poll alice 650) (watched_poll alice 700) [watched_poll alice 760]
              (watched_poll alice 1300) 7)
    as (_ & _ & [H3 _] & _ & _ & H4); try compute_done.
  split; [exact H3 | exact H4].
Defined.

(** ** C8: excluded agents *)

Lemma monitor_cycle_excluded p m i :
  i ∈ excluded_agents m → same_at i m (monitor (monitor_cycle p m)).
Proof.
  intros Hex. destruct (monitor_cycle_loop p m) as (c & e & Hf & -> & _).
  apply for_agents_idle with (i:=i) in Hf; [done|].
  apply Forall_forall. intros o _. right. by left.
Qed.

(** C8: for an agent of the excluded set, a cycle leaves its episode and its
    ledger membership as they were (none is created, none is added), and the
    monitor, the alerts sent and the entries of the summary are those of the
    same cycle run on the listing without the agent's records: it appears in
    neither list, whatever status its lookup would give. *)
Theorem excluded_agent_ignored p m i :
  i ∈ excluded_agents m →
  same_at i m (monitor (monitor_cycle p m)) ∧
  monitor (monitor_cycle p m) = monitor (monitor_cycle (forget i p) m) ∧
  sent (monitor_cycle p m) = sent (monitor_cycle (forget i p) m) ∧
  raised (monitor_cycle p m) = raised (monitor_cycle (forget i p) m) ∧
  default [] (summary (monitor_cycle p m)) =
    default [] (summary (monitor_cycle (forget i p) m)).
Proof.
  intros Hex. split; [by apply monitor_cycle_excluded|].
  apply monitor_cycle_forget; auto.
Qed.

Lemma excluded_agent_ignored_witness :
  7 ∈ excluded_agents (init {[7]}) ∧
  same_at 7 (init {[7]}) (monitor (monitor_cycle (watched_poll alice 600) (init {[7]}))) ∧
  sent (monitor_cycle (watched_poll alice 600) (init {[7]})) =
    sent (monitor_cycle (forget 7 (watched_poll alice 600)) (init {[7]})).
Proof.
  split; [compute_done|].
  destruct (excluded_agent_ignored (watched_poll alice 600) (init {[7]}) 7)
    as (H1 & _ & H2 & _); [compute_done|]. by split.
Defined.

(** From [__init__] on, an excluded agent never has an episode nor a ledger
    entry. *)
Lemma excluded_agent_never_tracked excluded polls i :
  i ∈ excluded →
  agent_status_times (monitor_after polls (init excluded)) !! i = None ∧
  i ∉ alerted_agents (monitor_after polls (init excluded)).
Proof.
  intros Hex.
  cut (∀ m, excluded_agents m = excluded →
            agent_status_times m !! i = None ∧ i ∉ alerted_agents m →
            agent_status_times (monitor_after polls m) !! i = None ∧
            i ∉ alerted_agents (monitor_after polls m)).
  { intros H. apply H; [done|]. simpl. split; [apply lookup_empty | set_solver]. }
  induction polls as [|p polls IH]; intros m Hm Hout; simpl; [done|].
  assert (Hstep : agent_status_times (monitor (monitor_cycle p m)) !! i = None ∧
                  i ∉ alerted_agents (monitor (monitor_cycle p m))).
  { destruct (monitor_cycle_excluded p m i) as [H1 H2]; [by rewrite Hm|].
    rewrite H1, H2. done. }
  destruct (raised (monitor_cycle p m)); [done|].
  apply IH; [|done]. by destruct (monitor_cycle_config p m) as (-> & _).
Qed.

(** ** C9: lookups that give nothing *)

(** C9: when every lookup for agent [i] in the cycle fails or gives no data,
    the episode of [i] and its ledger membership stay as they were; and, its
    records having their keys, the monitor, the alerts and the entries of the
    summary are those of the cycle run without these records: no duration
    is reported for [i]. *)
Theorem unavailable_agent_unchanged p m i :
  Forall (fun o => entry_of i o → unavailable o) (get_agents (users p)) →
  same_at i m (monitor (monitor_cycle p m)) ∧
  (Forall (fun o => entry_of i o → is_Some (agent_name (fst o))) (get_agents (users p)) →
   monitor (monitor_cycle p m) = monitor (monitor_cycle (forget i p) m) ∧
   sent (monitor_cycle p m) = sent (monitor_cycle (forget i p) m) ∧
   raised (monitor_cycle p m) = raised (monitor_cycle (forget i p) m) ∧
   default [] (summary (monitor_cycle p m)) =
     default [] (summary (monitor_cycle (forget i p) m))).
Proof.
  intros Hun. split.
  - destruct (monitor_cycle_loop p m) as (c & e & Hf & -> & _).
    apply for_agents_idle with (i:=i) in Hf; [done|].
    eapply Forall_impl; [done|]. intros o Ho. simpl.
    destruct (decide (entry_of i o)); [right; right; auto | by left].
  - intros Hnamed. apply monitor_cycle_forget. intros o Ho Hi. right.
    rewrite Forall_forall in Hun, Hnamed. auto.
Qed.

Lemma unavailable_agent_unchanged_witness :
  let m := monitor_after [watched_poll alice 0; watched_poll alice 600] (init ∅) in
  let p := Poll (660 * microseconds)
             (Body (Some [(alice, RequestException); (bob, transfers_only)])) in
  Forall (fun o => entry_of 7 o → unavailable o) (get_agents (users p)) ∧
  same_at 7 m (monitor (monitor_cycle p m)).
Proof.
  cbv zeta. split; [compute_done|].
  refine (proj1 (unavailable_agent_unchanged _ _ 7 _)). compute_done.
Defined.

(** ** C10: the ledger holds live episodes only *)

Lemma process_agent_ledger_tracked t o c c' e :
  ledger_tracked (self c) →
  process_agent t o c = (c', e) →
  ledger_tracked (self c').
Proof.
  unfold ledger_tracked. intros Hinv H. process_cases; try done.
  all: rewrite ?dom_insert_L, ?dom_delete_L.
  all: try match goal with
       | Hs : agent_status_times _ !! ?i = Some _ |- _ =>
         apply (elem_of_dom_2 (D:=gset Z)) in Hs
       end.
  all: set_solver.
Qed.

Lemma for_agents_ledger_tracked t l : ∀ c c' e,
  ledger_tracked (self c) →
  for_agents t l c = (c', e) →
  ledger_tracked (self c').
Proof.
  induction l as [|o l IH]; intros c c' e Hinv H; simpl in H.
  - by simplify_eq.
  - destruct (process_agent t o c) as [c1 [e1|]] eqn:Hp.
    + simplify_eq. by eapply process_agent_ledger_tracked.
    + eapply IH; [|done]. by eapply process_agent_ledger_tracked.
Qed.

Lemma monitor_cycle_ledger_tracked p m :
  ledger_tracked m → ledger_tracked (monitor (monitor_cycle p m)).
Proof.
  intros Hinv. destruct (monitor_cycle_loop p m) as (c & e & Hf & -> & _).
  by eapply for_agents_ledger_tracked in Hf.
Qed.

Lemma step_ledger_tracked g ev :
  ledger_tracked (zendesk_monitor g) → ledger_tracked (zendesk_monitor (step g ev)).
Proof.
  intros Hinv. destruct ev as [p|cl body]; simpl.
  - unfold tick. destruct (monitoring g); [|done]. simpl.
    by apply monitor_cycle_ledger_tracked.
  - unfold handle_acknowledgment.
    by destruct (acknowledge_block cl body (slack_calls g)) as [calls [e|[]]].
Qed.

Lemma run_ledger_tracked events : ∀ g,
  ledger_tracked (zendesk_monitor g) → ledger_tracked (zendesk_monitor (run events g)).
Proof.
  induction events as [|ev events IH]; intros g Hinv; simpl; [done|].
  apply IH. by apply step_ledger_tracked.
Qed.

(** C10: however the cycles of the monitor and the acknowledgments follow
    each other from the start of the program, after each of them every agent
    of the alerted ledger has a live episode in the tracking map. *)
Theorem ledger_within_episodes excluded events :
  alerted_agents (zendesk_monitor (run events (start excluded)))
    ⊆ dom (agent_status_times (zendesk_monitor (run events (start excluded)))).
Proof.
  apply (run_ledger_tracked events (start excluded)).
  unfold ledger_tracked. simpl. set_solver.
Qed.

(** * Further properties of the code *)

(** ** The order of the printed summary *)

Lemma insert_desc_elem x y l : y ∈ insert_desc x l ↔ y = x ∨ y ∈ l.
Proof. by rewrite insert_desc_perm, elem_of_cons. Qed.

Lemma insert_desc_sorted x l :
  StronglySorted longer_first l → StronglySorted longer_first (insert_desc x l).
Proof.
  induction 1 as [|y l Hl IH Hy]; simpl; [by repeat constructor|].
  destruct (Z.ltb_spec (snd x) (snd y)).
  - constructor; [done|]. apply Forall_forall. intros z [->|Hz]%insert_desc_elem.
    + unfold longer_first. lia.
    + rewrite Forall_forall in Hy. by apply Hy.
  - constructor; [by constructor|]. constructor; [done|].
    eapply Forall_impl; [done|]. unfold longer_first. intros z ?. lia.
Qed.

Lemma insert_desc_stable d x l :
  filter (fun y => snd y = d) (insert_desc x l) = filter (fun y => snd y = d) (x :: l).
Proof.
  induction l as [|y l IH]; simpl; [done|].
  destruct (Z.ltb_spec (snd x) (snd y)); [|done].
  rewrite filter_cons, IH, !filter_cons.
  repeat case_decide; try done; lia.
Qed.

Lemma sort_desc_spec l :
  StronglySorted longer_first (sort_desc l) ∧
  sort_desc l ≡ₚ l ∧
  ∀ d, filter (fun y => snd y = d) (sort_desc l) = filter (fun y => snd y = d) l.
Proof.
  split; [|split; [apply sort_desc_perm|]].
  - induction l as [|x l IH]; [constructor|]. by apply insert_desc_sorted.
  - intros d. induction l as [|x l IH]; [done|].
    change (sort_desc (x :: l)) with (insert_desc x (sort_desc l)).
    by rewrite insert_desc_stable, !filter_cons, IH.
Qed.

(** The summary a cycle prints holds the pairs the loop collected, no more
    and no fewer, the longest duration first, and pairs of equal duration in
    the order in which the loop collected them. *)
Theorem summary_longest_first p m l :
  summary (monitor_cycle p m) = Some l →
  StronglySorted longer_first l ∧
  ∃ c, for_agents (now p) (get_agents (users p)) (Cycle m [] []) = (c, None) ∧
    l ≡ₚ transfers_only_agents c ∧
    ∀ d, filter (fun y => snd y = d) l =
         filter (fun y => snd y = d) (transfers_only_agents c).
Proof.
  unfold monitor_cycle. destruct (get_agents (users p)) as [|o agents]; [done|].
  destruct (for_agents (now p) (o :: agents) (Cycle m [] [])) as [c [e|]]; [done|].
  simpl. intros [= <-].
  destruct (sort_desc_spec (transfers_only_agents c)) as (H1 & H2 & H3). eauto.
Qed.

Lemma summary_longest_first_witness :
  summary (monitor_cycle
             (Poll (600 * microseconds)
                (Body (Some [(bob, transfers_only); (alice, transfers_only)])))
             (monitor_after [watched_poll alice 0] (init ∅))) =
    Some [("Alice"%string, 600 * microseconds); ("Bob"%string, 0)] ∧
  StronglySorted longer_first [("Alice"%string, 600 * microseconds); ("Bob"%string, 0)].
Proof.
  split; [compute_done|].
  refine (proj1 (summary_longest_first
                   (Poll (600 * microseconds)
                      (Body (Some [(bob, transfers_only); (alice, transfers_only)])))
                   (monitor_after [watched_poll alice 0] (init ∅)) _ _)).
  compute_done.
Defined.

(** ** Alerts and durations *)

Lemma int_seconds_reaches d threshold :
  reaches d threshold = true → threshold <= int_seconds d.
Proof.
  unfold reaches, int_seconds, microseconds. intros H%Z.leb_le.
  rewrite <- (Z.quot_mul threshold 1000000) by done.
  by apply Z.quot_le_mono.
Qed.

Lemma process_agent_alerts_due t o c c' e :
  Forall (fun x => alert_threshold (self c) <= snd x) (alerts c) →
  process_agent t o c = (c', e) →
  Forall (fun x => alert_threshold (self c') <= snd x) (alerts c').
Proof.
  intros Hall H. process_cases; try done.
  all: apply Forall_app; split; [done|]; constructor; [|done]; simpl.
  all: match goal with
       | H : _ && _ = true |- _ => apply andb_true_iff in H as [H _]
       end.
  all: by apply int_seconds_reaches.
Qed.

Lemma for_agents_alerts_due t l : ∀ c c' e,
  Forall (fun x => alert_threshold (self c) <= snd x) (alerts c) →
  for_agents t l c = (c', e) →
  Forall (fun x => alert_threshold (self c') <= snd x) (alerts c').
Proof.
  induction l as [|o l IH]; intros c c' e Hall H; simpl in H.
  - by simplify_eq.
  - destruct (process_agent t o c) as [c1 [e1|]] eqn:Hp.
    + simplify_eq. by eapply process_agent_alerts_due.
    + eapply IH; [|done]. by eapply process_agent_alerts_due.
Qed.

(** No alert is sent early: the whole seconds an alert carries are at least
    the threshold of the monitor. *)
Theorem alerts_not_early p m x :
  x ∈ sent (monitor_cycle p m) → alert_threshold m <= snd x.
Proof.
  destruct (monitor_cycle_loop p m) as (c & e & Hf & _ & -> & _).
  destruct (for_agents_config _ _ _ _ _ Hf) as (_ & Hthr & _).
  apply for_agents_alerts_due in Hf; [|by constructor].
  rewrite Forall_forall in Hf. simpl in Hthr. intros Hx. rewrite <- Hthr. by apply Hf.
Qed.

Lemma alerts_not_early_witness :
  ("Alice"%string, 600) ∈
    sent (monitor_cycle (watched_poll alice 600) (monitor_after [watched_poll alice 0] (init ∅))) ∧
  alert_threshold (monitor_after [watched_poll alice 0] (init ∅)) <= 600.
Proof.
  split; [compute_done|].
  apply (alerts_not_early (watched_poll alice 600)
           (monitor_after [watched_poll alice 0] (init ∅)) ("Alice"%string, 600)).
  compute_done.
Defined.

Lemma int_seconds_nonneg d : 0 <= d → 0 <= int_seconds d.
Proof. unfold int_seconds, microseconds. intros. by apply Z.quot_pos. Qed.

Lemma process_agent_started_by t o c c' e :
  started_by t (self c) →
  Forall (fun x => 0 <= snd x) (transfers_only_agents c) →
  Forall (fun x => 0 <= snd x) (alerts c) →
  process_agent t o c = (c', e) →
  started_by t (self c') ∧
  Forall (fun x => 0 <= snd x) (transfers_only_agents c') ∧
  Forall (fun x => 0 <= snd x) (alerts c').
Proof.
  unfold started_by. intros Hst Hseen Hal H. process_cases; try done.
  all: repeat match goal with
       | H : agent_status_times _ !! _ = Some _ |- _ =>
         apply Hst in H; simpl in H
       end.
  all: repeat split; rewrite ?Forall_app, ?Forall_singleton; simpl;
    try done; try (split; [done|]);
    try (apply int_seconds_nonneg); try lia.
  all: first [ apply map_Forall_insert_2; [lia|done]
             | by apply map_Forall_delete ].
Qed.

Lemma for_agents_started_by t l : ∀ c c' e,
  started_by t (self c) →
  Forall (fun x => 0 <= snd x) (transfers_only_agents c) →
  Forall (fun x => 0 <= snd x) (alerts c) →
  for_agents t l c = (c', e) →
  started_by t (self c') ∧
  Forall (fun x => 0 <= snd x) (transfers_only_agents c') ∧
  Forall (fun x => 0 <= snd x) (alerts c').
Proof.
  induction l as [|o l IH]; intros c c' e Hst Hseen Hal H; simpl in H.
  - by simplify_eq.
  - destruct (process_agent t o c) as [c1 [e1|]] eqn:Hp.
    + simplify_eq. by eapply process_agent_started_by.
    + eapply process_agent_started_by in Hp as (? & ? & ?); [|done..].
      by eapply IH.
Qed.

Lemma monitor_cycle_started_by p m :
  started_by (now p) m →
  started_by (now p) (monitor (monitor_cycle p m)) ∧
  Forall (fun x => 0 <= snd x) (default [] (summary (monitor_cycle p m))) ∧
  Forall (fun x => 0 <= snd x) (sent (monitor_cycle p m)).
Proof.
  intros Hst. destruct (monitor_cycle_loop p m) as (c & e & Hf & -> & -> & _ & Hsum & _).
  apply for_agents_started_by in Hf as (H1 & H2 & H3); try done.
  split; [done|]. split; [|done].
  rewrite Forall_forall in H2. apply Forall_forall. auto.
Qed.

Lemma started_by_later t t' m : t <= t' → started_by t m → started_by t' m.
Proof.
  unfold started_by. intros Hle Hst. eapply map_Forall_impl; [done|].
  simpl. intros. lia.
Qed.

Lemma monitor_agents_started_by polls : ∀ m t,
  started_by t m →
  StronglySorted Z.le (t :: map now polls) →
  Forall (fun r => Forall (fun x => 0 <= snd x) (default [] (summary r)) ∧
                   Forall (fun x => 0 <= snd x) (sent r))
         (monitor_agents polls m).
Proof.
  induction polls as [|p polls IH]; intros m t Hst Hsorted; simpl; [done|].
  apply StronglySorted_inv in Hsorted as [Hrest Hle].
  apply Forall_cons in Hle as [Hle _].
  destruct (monitor_cycle_started_by p m) as (H1 & H2 & H3).
  { by eapply started_by_later. }
  constructor; [done|].
  destruct (raised (monitor_cycle p m)); [done|]. by eapply IH.
Qed.

(** With a clock that does not go back from one poll to the next, from
    [__init__] on, every duration a cycle prints or sends is zero or more. *)
Theorem durations_nonnegative excluded polls :
  StronglySorted Z.le (map now polls) →
  Forall (fun r => Forall (fun x => 0 <= snd x) (default [] (summary r)) ∧
                   Forall (fun x => 0 <= snd x) (sent r))
         (monitor_agents polls (init excluded)).
Proof.
  intros Hsorted. destruct polls as [|p polls]; [done|].
  apply (monitor_agents_started_by _ _ (now p)).
  - unfold started_by. simpl. apply map_Forall_empty.
  - simpl in *. constructor; [done|]. constructor; [done|].
    by apply StronglySorted_inv in Hsorted as [_ ?].
Qed.

Lemma durations_nonnegative_witness :
  Forall (fun r => Forall (fun x => 0 <= snd x) (default [] (summary r)) ∧
                   Forall (fun x => 0 <= snd x) (sent r))
         (monitor_agents [watched_poll alice 0; watched_poll alice 600; other_poll alice 660]
            (init ∅)).
Proof. apply durations_nonnegative. compute_done. Defined.

(** ** What starts and what ends an episode *)

Lemma process_agent_no_start t o c c' e i :
  agent_status_times (self c) !! i = None →
  (entry_of i o → i ∉ excluded_agents (self c) → ¬ watched o) →
  process_agent t o c = (c', e) →
  agent_status_times (self c') !! i = None.
Proof.
  intros Hs Hno H.
  destruct (decide (entry_of i o)) as [Hi|Hi].
  - destruct (decide (i ∈ excluded_agents (self c))) as [Hex|Hex].
    { rewrite (process_agent_skip t o c i) in H by auto. by simplify_eq. }
    specialize (Hno Hi Hex).
    destruct (agent_name (fst o)) as [name|] eqn:Hname.
    2: { unfold process_agent in H. rewrite Hi, Hname in H.
         rewrite decide_False in H by done. by simplify_eq. }
    destruct (decide (unavailable o)) as [Hu|Hu].
    { rewrite (process_agent_skip t o c i) in H by (rewrite ?Hname; eauto).
      by simplify_eq. }
    rewrite (process_agent_elsewhere t o c i name) in H by done.
    simplify_eq. simpl. apply lookup_delete_eq.
  - assert (same_at i (self c) (self c')) as [H1 _].
    { eapply process_agent_idle; [|done]. by left. }
    congruence.
Qed.

Lemma for_agents_no_start t i l : ∀ c c' e,
  agent_status_times (self c) !! i = None →
  Forall (fun o => entry_of i o → i ∉ excluded_agents (self c) → ¬ watched o) l →
  for_agents t l c = (c', e) →
  agent_status_times (self c') !! i = None.
Proof.
  induction l as [|o l IH]; intros c c' e Hs Hno H; simpl in H.
  - by simplify_eq.
  - apply Forall_cons in Hno as [Ho Hno].
    destruct (process_agent t o c) as [c1 [e1|]] eqn:Hp.
    + simplify_eq. by eapply process_agent_no_start.
    + destruct (process_agent_config _ _ _ _ _ Hp) as (Hx & _).
      eapply IH; [by eapply process_agent_no_start| |done]. by rewrite Hx.
Qed.

(** The start recorded for an agent changes in a cycle only for a cause in
    the listing: an agent without an episode gets one only from a record of
    it in the watched status, and an agent with an episode loses or changes
    it only after a record of it in another status; in both cases the agent
    is not excluded. *)
Theorem episode_change_has_cause p m i :
  agent_status_times (monitor (monitor_cycle p m)) !! i ≠ agent_status_times m !! i →
  (i ∉ excluded_agents m) ∧
  Exists (fun o => entry_of i o ∧
                   if agent_status_times m !! i is Some _ then elsewhere o else watched o)
         (get_agents (users p)).
Proof.
  intros Hdiff.
  destruct (decide (i ∈ excluded_agents m)) as [Hex|Hex].
  { destruct (monitor_cycle_excluded p m i Hex) as [Hsame _]. done. }
  split; [done|].
  destruct (monitor_cycle_loop p m) as (c & e & Hf & Hm & _). rewrite Hm in Hdiff.
  destruct (agent_status_times m !! i) as [s|] eqn:Hs.
  - apply dec_stable. intros Hnone. apply Hdiff.
    apply not_Exists_Forall in Hnone; [|intros o; apply _].
    apply (for_agents_keeps _ i s) in Hf as [? _]; [done..|].
    rewrite Forall_forall in Hnone. intros o Ho Hi Hel.
    apply (Hnone o Ho). by split.
  - apply dec_stable. intros Hnone. apply Hdiff.
    apply not_Exists_Forall in Hnone; [|intros o; apply _].
    apply (for_agents_no_start _ i) in Hf; [done..|].
    eapply Forall_impl; [done|]. simpl. intros o Ho Hi _ Hw. apply Ho. by split.
Qed.

Lemma episode_change_has_cause_witness :
  (7 ∉ excluded_agents (init ∅)) ∧
  Exists (fun o => entry_of 7 o ∧
                   if agent_status_times (init ∅) !! 7 is Some _ then elsewhere o else watched o)
         (get_agents (users (watched_poll alice 0))).
Proof. apply episode_change_has_cause. compute_done. Defined.

(** ** The record that ends the loop *)

(** The first record of a listing that lacks a key the loop subscripts ends
    the cycle with the [KeyError] of that key: the monitor and the alerts
    are those of the records before it, no summary is printed, and the
    records after it play no part. *)
Theorem first_malformed_record_raises t l1 o l2 m :
  Forall (well_formed (excluded_agents m)) l1 →
  ¬ well_formed (excluded_agents m) o →
  let r := monitor_cycle (Poll t (Body (Some (l1 ++ o :: l2)))) m in
  let r1 := monitor_cycle (Poll t (Body (Some l1))) m in
  raised r = Some (KeyError (if agent_id (fst o) is Some _ then "name" else "id")) ∧
  summary r = None ∧
  monitor r = monitor r1 ∧
  sent r = sent r1.
Proof.
  intros Hwf Hbad r r1.
  destruct (for_agents t l1 (Cycle m [] [])) as [c1 e1] eqn:Hf1.
  pose proof (for_agents_completes_iff _ _ _ _ _ Hf1) as Hiff.
  apply Hiff in Hwf as ->.
  destruct (for_agents_config _ _ _ _ _ Hf1) as (Hx & _). simpl in Hx.
  assert (Hp : process_agent t o c1 =
               (c1, Some (KeyError (if agent_id (fst o) is Some _ then "name" else "id")))).
  { unfold well_formed in Hbad. unfold process_agent. rewrite Hx.
    destruct (agent_id (fst o)) as [i|]; [|done].
    destruct (decide (i ∈ excluded_agents m)); [by destruct Hbad; left|].
    destruct (agent_name (fst o)); [by destruct Hbad; right|done]. }
  assert (Hf : for_agents t (l1 ++ o :: l2) (Cycle m [] []) =
               (c1, Some (KeyError (if agent_id (fst o) is Some _ then "name" else "id")))).
  { rewrite for_agents_app, Hf1. simpl. by rewrite Hp. }
  subst r r1. unfold monitor_cycle. simpl.
  destruct (l1 ++ o :: l2) as [|o' l'] eqn:Hl; [by destruct l1|].
  rewrite Hf. simpl. destruct l1 as [|o1 l1']; [by simplify_eq/=|].
  by rewrite Hf1.
Qed.

Lemma first_malformed_record_raises_witness :
  let r := monitor_cycle
             (Poll 0 (Body (Some ([(alice, transfers_only)] ++
                                  (anonymous, transfers_only) :: [(bob, transfers_only)]))))
             (init ∅) in
  raised r = Some (KeyError "id") ∧
  monitor r = monitor (monitor_cycle (Poll 0 (Body (Some [(alice, transfers_only)]))) (init ∅)).
Proof.
  cbv zeta.
  destruct (first_malformed_record_raises 0 [(alice, transfers_only)]
              (anonymous, transfers_only) [(bob, transfers_only)] (init ∅))
    as (H1 & _ & H3 & _); [compute_done..|].
  split; [exact H1 | exact H3].
Defined.

(** ** Printed durations *)

Lemma pretty_N_char_digit x : is_digit (pretty_N_char x) = true.
Proof. unfold pretty_N_char. by repeat case_match. Qed.

Lemma append_nil s : "" +:+ s = s.
Proof. done. Qed.

Lemma append_cons a s1 s2 : String a s1 +:+ s2 = String a (s1 +:+ s2).
Proof. done. Qed.

Lemma all_digits_app s1 s2 :
  all_digits (s1 +:+ s2) = all_digits s1 && all_digits s2.
Proof.
  induction s1 as [|a s1 IH]; rewrite ?append_nil, ?append_cons; simpl; [done|].
  by rewrite IH, andb_assoc.
Qed.

Lemma append_assoc_char s1 a s2 : (s1 +:+ String a "") +:+ s2 = s1 +:+ String a s2.
Proof.
  induction s1 as [|b s1 IH]; rewrite ?append_nil, ?append_cons; [done|].
  by rewrite IH.
Qed.

Lemma pretty_N_go_digits x : ∀ s,
  ∃ ds, pretty_N_go x s = ds +:+ s ∧ all_digits ds = true.
Proof.
  induction (N.lt_wf_0 x) as [x _ IH]. intros s.
  destruct (decide (x = 0)%N) as [->|Hx].
  { exists ""%string. by rewrite pretty_N_go_0. }
  rewrite pretty_N_go_step by lia.
  destruct (IH (x `div` 10)%N) with (s := String (pretty_N_char (x `mod` 10)) s)
    as (ds & -> & Hds); [apply N.div_lt; lia|].
  exists (ds +:+ String (pretty_N_char (x `mod` 10)) ""). split.
  - by rewrite append_assoc_char.
  - rewrite all_digits_app, Hds. simpl. by rewrite pretty_N_char_digit.
Qed.

Lemma pretty_nonneg_digits (z : Z) : 0 <= z → all_digits (pretty z) = true.
Proof.
  intros Hz. destruct z as [|p|p]; [done| |lia].
  change (pretty (Z.pos p)) with (pretty (N.pos p)).
  unfold pretty, pretty_N. rewrite decide_False by done.
  destruct (pretty_N_go_digits (N.pos p) "") as (ds & -> & Hds).
  by rewrite all_digits_app, Hds.
Qed.

Lemma leading_digits_app ds a s :
  all_digits ds = true → is_digit a = false →
  leading_digits (ds +:+ String a s) = ds ∧ after_digits (ds +:+ String a s) = String a s.
Proof.
  intros Hds Ha. induction ds as [|b ds IH]; rewrite ?append_nil, ?append_cons; simpl in *.
  - by rewrite Ha.
  - apply andb_true_iff in Hds as [-> Hds]. destruct (IH Hds) as [-> ->]. done.
Qed.

(** Two numbers written before a letter: the strings are equal only if the
    numbers are and the rests are. *)
Lemma pretty_then_letter_inj (x y : Z) a b s1 s2 :
  0 <= x → 0 <= y → is_digit a = false → is_digit b = false →
  pretty x +:+ String a s1 = pretty y +:+ String b s2 →
  x = y ∧ String a s1 = String b s2.
Proof.
  intros Hx Hy Ha Hb Heq.
  destruct (leading_digits_app (pretty x) a s1) as [H1 H2];
    [by apply pretty_nonneg_digits|done|].
  destruct (leading_digits_app (pretty y) b s2) as [H3 H4];
    [by apply pretty_nonneg_digits|done|].
  rewrite Heq in H1, H2. split; [|congruence].
  apply (inj pretty). congruence.
Qed.

(** The three shapes of a printed duration. *)
Lemma format_duration_shape d :
  0 <= d →
  ∃ h m s, 0 <= h ∧ 0 <= m < 60 ∧ 0 <= s < 60 ∧
    int_seconds d = 3600 * h + 60 * m + s ∧
    format_duration d =
      if 0 <? h then pretty h +:+ "h " +:+ pretty m +:+ "m " +:+ pretty s +:+ "s"
      else if 0 <? m then pretty m +:+ "m " +:+ pretty s +:+ "s"
      else pretty s +:+ "s".
Proof.
  intros Hd. pose proof (int_seconds_nonneg d Hd) as HT.
  exists (int_seconds d / 60 / 60), (int_seconds d / 60 mod 60), (int_seconds d mod 60).
  pose proof (Z.div_mod (int_seconds d) 60 ltac:(done)).
  pose proof (Z.div_mod (int_seconds d / 60) 60 ltac:(done)).
  pose proof (Z.mod_pos_bound (int_seconds d) 60 ltac:(done)).
  pose proof (Z.mod_pos_bound (int_seconds d / 60) 60 ltac:(done)).
  assert (0 <= int_seconds d / 60) by (apply Z.div_pos; lia).
  assert (0 <= int_seconds d / 60 / 60) by (apply Z.div_pos; lia).
  repeat split; try lia. 
Qed.

(** For durations of zero or more, the printed text tells the whole seconds:
    two durations are printed alike only if they have the same number of
    whole seconds. *)
Theorem format_duration_tells_seconds d1 d2 :
  0 <= d1 → 0 <= d2 →
  format_duration d1 = format_duration d2 →
  int_seconds d1 = int_seconds d2.
Proof.
  intros H1 H2 Heq.
  destruct (format_duration_shape d1 H1) as (h1 & m1 & s1 & ? & ? & ? & -> & E1).
  destruct (format_duration_shape d2 H2) as (h2 & m2 & s2 & ? & ? & ? & -> & E2).
  rewrite E1, E2 in Heq. clear E1 E2.
  destruct (Z.ltb_spec 0 h1), (Z.ltb_spec 0 h2),
           (Z.ltb_spec 0 m1), (Z.ltb_spec 0 m2);
    rewrite ?append_cons, ?append_nil in Heq;
    repeat match goal with
    | H : pretty _ +:+ String _ _ = pretty _ +:+ String _ _ |- _ =>
      apply pretty_then_letter_inj in H as [? H]; [|lia|lia|done|done];
      simplify_eq H; clear H; intros H
    end;
    try (apply pretty_then_letter_inj in Heq as [? _]; [|lia|lia|done|done]);
    first [lia | done].
Qed.

Lemma format_duration_tells_seconds_witness :
  format_duration (3661 * microseconds) = format_duration (3661 * microseconds + 999999) ∧
  int_seconds (3661 * microseconds) = int_seconds (3661 * microseconds + 999999).
Proof.
  split; [compute_done|].
  apply format_duration_tells_seconds; compute_done.
Defined.

(** ** [RateLimiter] *)

Lemma filter_length_le {A} (P Q : A → Prop) `{∀ x, Decision (P x)} `{∀ x, Decision (Q x)}
    (l : list A) :
  (∀ x, P x → Q x) → (length (filter P l) <= length (filter Q l))%nat.
Proof.
  intros HPQ. induction l as [|x l IH]; [done|].
  rewrite !filter_cons. repeat case_decide; simpl; try lia. naive_solver.
Qed.

Lemma filter_filter_weaker {A} (P Q : A → Prop) `{∀ x, Decision (P x)} `{∀ x, Decision (Q x)}
    (l : list A) :
  (∀ x, P x → Q x) → filter P (filter Q l) = filter P l.
Proof.
  intros HPQ. induction l as [|x l IH]; [done|].
  rewrite !filter_cons. repeat case_decide; rewrite ?filter_cons; repeat case_decide;
    try done; try naive_solver. by rewrite IH.
Qed.

Lemma wrapper_step limit last history self now finished :
  1 <= limit →
  limiter_inv limit last history self →
  last <= now →
  ∃ self' slept,
    wrapper now (inr finished) self = (self', inr slept) ∧
    (now + default 0 slept <= finished →
     limiter_inv limit finished (history ++ [finished]) self').
Proof.
  intros Hlimit (Hcpm & Hsame & Hcount) Hnow.
  destruct self as [cpm calls0]. simpl in *. subst cpm.
  set (recent := filter (fun c => now - c < minute) calls0).
  assert (Hrecent : Z.of_nat (length recent) <= limit).
  { unfold recent. rewrite <- Hsame by done.
    etrans; [|exact Hcount]. apply inj_le.
    apply filter_length_le. intros c. lia. }
  assert (Hlater : ∀ t, now <= t →
            filter (fun c => t - c < minute) history = filter (fun c => t - c < minute) recent).
  { intros t Ht. rewrite Hsame by lia. unfold recent.
    symmetry. apply filter_filter_weaker. intros c. lia. }
  assert (Hinv : ∀ slept, now + default 0 slept <= finished → 0 <= default 0 slept →
            Z.of_nat (length (filter (fun c => finished - c < minute) recent)) + 1 <= limit →
            limiter_inv limit finished (history ++ [finished])
              (Limiter limit (recent ++ [finished]))).
  { intros slept Hfin Hpos Hroom. split; [done|]. split.
    - intros t Ht. simpl. rewrite !filter_app, Hlater by lia. done.
    - rewrite filter_app, length_app, Hlater by lia.
      rewrite filter_cons, decide_True by (unfold minute, microseconds; lia).
      simpl. lia. }
  unfold wrapper. simpl. fold recent.
  destruct (decide (limit <= Z.of_nat (length recent))) as [Hfull|Hroom].
  - destruct recent as [|first rest] eqn:Hr; [simpl in *; lia|].
    assert (Hfirst : now - first < minute).
    { assert (first ∈ filter (fun c => now - c < minute) calls0) as Hin
        by (change (first ∈ recent); rewrite Hr; left).
      by apply list_elem_of_filter in Hin as [? _]. }
    rewrite (proj2 (Z.ltb_lt 0 (minute - (now - first)))) by lia.
    eexists _, _. split; [done|]. simpl. intros Hfin.
    apply (Hinv (Some (minute - (now - first)))); simpl; [done|lia|].
    rewrite filter_cons, decide_False by lia.
    pose proof (length_filter (fun c => finished - c < minute) rest).
    simpl in *. lia.
  - eexists _, _. split; [done|]. simpl. intros Hfin.
    apply (Hinv None); simpl; [lia|done|].
    pose proof (length_filter (fun c => finished - c < minute) recent). lia.
Qed.

Lemma wrapper_calls_bound limit times : ∀ last history self,
  1 <= limit →
  limiter_inv limit last history self →
  clocked last times self →
  ∀ k now finished,
    times !! k = Some (now, finished) →
    Z.of_nat (length (filter (fun c => finished - c < minute)
                        (history ++ map snd (take (S k) times)))) <= limit.
Proof.
  induction times as [|[now0 fin0] times IH];
    intros last history self Hlimit Hinv Hclock k now finished Hk; [done|].
  simpl in Hclock. destruct Hclock as [Hnow Hclock].
  destruct (wrapper_step limit last history self now0 fin0 Hlimit Hinv Hnow)
    as (self' & slept & Hw & Hnext).
  rewrite Hw in Hclock. destruct Hclock as [Hfin Hclock].
  specialize (Hnext Hfin).
  destruct k as [|k]; simpl in *.
  - simplify_eq. rewrite ?take_0. by destruct Hnext as (_ & _ & ?).
  - rewrite (cons_middle fin0), app_assoc. by eapply IH.
Qed.

(** The limit holds: with a limit of one or more and a clock that runs as
    the calls do, for every call of the decorated function the calls that
    finished in the minute up to its own finish, itself included, are at
    most [calls_per_minute]. *)
Theorem rate_limit_holds limit t0 times k now finished :
  1 <= limit →
  clocked t0 times (Limiter limit []) →
  times !! k = Some (now, finished) →
  Z.of_nat (length (filter (fun c => finished - c < minute)
                      (map snd (take (S k) times)))) <= limit.
Proof.
  intros Hlimit Hclock Hk.
  apply (wrapper_calls_bound limit times t0 [] (Limiter limit []) Hlimit) with (now := now);
    [|done..].
  split; [done|]. split; [done|]. simpl. lia.
Qed.

Lemma rate_limit_holds_witness :
  let times := [(0, 1); (2, 3); (4, 60000001); (60000001, 60000003)] in
  clocked 0 times (Limiter 2 []) ∧
  Z.of_nat (length (filter (fun c => 60000003 - c < minute) (map snd (take 4 times)))) <= 2.
Proof.
  cbv zeta. split; [compute_done|].
  apply (rate_limit_holds 2 0 _ 3 60000001 60000003); compute_done.
Defined.

(** A limit of zero or less: when no recorded call is less than a minute
    old (as at the first call), the wrapper raises [IndexError] at
    [self.calls[0]]; the decorated function is not called and nothing is
    recorded. *)
Theorem no_limit_raises now func self :
  calls_per_minute self <= 0 →
  Forall (fun c => minute <= now - c) (calls self) →
  wrapper now func self = (Limiter (calls_per_minute self) [], inl IndexError).
Proof.
  intros Hlimit Hold. unfold wrapper.
  assert (filter (fun c => now - c < minute) (calls self) = []) as ->.
  { induction Hold as [|c l Hc _ IH]; [done|].
    by rewrite filter_cons_False by lia. }
  simpl. by rewrite decide_True by done.
Qed.

Lemma no_limit_raises_witness :
  wrapper 5 (inr 6) (Limiter 0 []) = (Limiter 0 [], inl IndexError).
Proof. apply (no_limit_raises 5 (inr 6) (Limiter 0 [])); compute_done. Defined.

(** The sleep of the wrapper, whether the decorated function then returns
    or raises.  The wrapper calls [time.sleep] exactly when the calls of the
    last minute have reached the limit and there is one of them (the test
    [sleep_time > 0] never fails then); it sleeps until the oldest of them
    is a minute old: a time above zero and, if no recorded call is ahead of
    the clock, of a minute at most.  When the limit is reached without any
    call in the last minute (a limit of zero or less), it raises
    [IndexError] and has not slept; below the limit it does not sleep.
    After the sleep the decorated function is called, and its finish is
    recorded only if it returns. *)
Theorem wrapper_sleep_time now func self :
  let recent := filter (fun c => now - c < minute) (calls self) in
  let full := calls_per_minute self <= Z.of_nat (length recent) in
  wrapper now func self =
    match wrapper_sleep now self, func with
    | inl e, _ => (Limiter (calls_per_minute self) recent, inl e)
    | inr _, inl e => (Limiter (calls_per_minute self) recent, inl e)
    | inr slept, inr finished =>
      (Limiter (calls_per_minute self) (recent ++ [finished]), inr slept)
    end ∧
  match wrapper_sleep now self with
  | inl e => e = IndexError ∧ full ∧ recent = []
  | inr None => ¬ full
  | inr (Some s) =>
    full ∧ 0 < s ∧
    (∃ first, head recent = Some first ∧ now + s = first + minute) ∧
    (Forall (fun c => c <= now) (calls self) → s <= minute)
  end.
Proof.
  intros recent full. split.
  - unfold wrapper, wrapper_sleep. fold recent.
    destruct (decide _); [|done]. destruct recent; [done|]. by destruct func.
  - unfold wrapper_sleep. fold recent. unfold full.
    assert (Hhead : ∀ first, head recent = Some first →
              now - first < minute ∧ first ∈ calls self).
    { intros first Hh. apply head_Some_elem_of in Hh.
      apply list_elem_of_filter in Hh as [? ?]. done. }
    destruct (decide (calls_per_minute self <= Z.of_nat (length recent))) as [Hfull|Hroom];
      [|done].
    destruct recent as [|first rest] eqn:Hr; [done|].
    destruct (Hhead first eq_refl) as [Hlt Hin].
    rewrite (proj2 (Z.ltb_lt 0 (minute - (now - first)))) by lia.
    split; [done|]. split; [lia|]. split; [exists first; split; [done|lia]|].
    intros Hpast. rewrite Forall_forall in Hpast. specialize (Hpast first Hin). lia.
Qed.

Lemma wrapper_sleep_time_witness :
  wrapper_sleep 100000000 (Limiter 2 [1; 50000000; 99000000]) = inr (Some 10000000) ∧
  wrapper 100000000 (inl SlackApiError) (Limiter 2 [1; 50000000; 99000000]) =
    (Limiter 2 [50000000; 99000000], inl SlackApiError) ∧
  wrapper_sleep 5 (Limiter 0 []) = inl IndexError.
Proof.
  split; [compute_done|]. split; [|compute_done].
  exact (proj1 (wrapper_sleep_time 100000000 (inl SlackApiError)
                  (Limiter 2 [1; 50000000; 99000000]))).
Defined.

(** ** The sheet of logged questions *)

Section sheet_properties.

Context (strip lower : string → string).

Lemma find_row_from_spec user_name question rows : ∀ start,
  match find_row_from strip start user_name question rows with
  | Some idx =>
    ∃ k row, idx = start + Z.of_nat k ∧ rows !! k = Some row ∧
      matches_row strip user_name question row = true ∧
      ∀ j row', (j < k)%nat → rows !! j = Some row' →
        matches_row strip user_name question row' = false
  | None => Forall (fun row => matches_row strip user_name question row = false) rows
  end.
Proof.
  induction rows as [|row rows IH]; intros start; simpl; [done|].
  destruct (matches_row strip user_name question row) eqn:Hrow.
  - exists 0%nat, row. repeat split; [lia|done|]. intros j row' Hj. lia.
  - specialize (IH (start + 1)).
    destruct (find_row_from strip (start + 1) user_name question rows) as [idx|].
    + destruct IH as (k & row1 & -> & Hk & Hm & Hfirst).
      exists (S k), row1. repeat split; [lia|done..|].
      intros [|j] row' Hj Hrow'; simplify_eq/=; [done|].
      eapply Hfirst; [|done]. lia.
    + by constructor.
Qed.

Lemma tail_lookup {A} (l : list A) (k : nat) : tail l !! k = l !! S k.
Proof. by destruct l. Qed.

Lemma find_row_by_question_spec user_name question sheet :
  match find_row_by_question strip true user_name question sheet with
  | Some idx =>
    2 <= idx <= Z.of_nat (length sheet) ∧
    ∃ row, sheet !! Z.to_nat (idx - 1) = Some row ∧
      matches_row strip user_name question row = true ∧
      ∀ j row', (1 <= j < Z.to_nat (idx - 1))%nat → sheet !! j = Some row' →
        matches_row strip user_name question row' = false
  | None =>
    ∀ j row', (1 <= j)%nat → sheet !! j = Some row' →
      matches_row strip user_name question row' = false
  end.
Proof.
  unfold find_row_by_question.
  pose proof (find_row_from_spec user_name question (tail sheet) 2) as Hspec.
  destruct (find_row_from strip 2 user_name question (tail sheet)) as [idx|].
  - destruct Hspec as (k & row & -> & Hk & Hm & Hfirst).
    rewrite tail_lookup in Hk.
    replace (Z.to_nat (2 + Z.of_nat k - 1)) with (S k) by lia.
    split; [apply lookup_lt_Some in Hk; lia|].
    exists row. repeat split; [done..|].
    intros [|j] row' Hj Hrow'; [lia|].
    apply (Hfirst j); [lia|]. by rewrite tail_lookup.
  - intros [|j] row' Hj Hrow'; [lia|].
    rewrite Forall_forall in Hspec. apply Hspec.
    apply list_elem_of_lookup. exists j. by rewrite tail_lookup.
Qed.

(** [find_row_by_question] gives the number, counted from 1 as the sheet
    counts its rows, of the first row below the header that has the name
    and the question (both up to outer blanks); never the header; and
    [None], when the sheet can be read, exactly when no row below the header
    has them. *)
Theorem find_row_by_question_first user_name question sheet :
  match find_row_by_question strip true user_name question sheet with
  | Some idx =>
    2 <= idx <= Z.of_nat (length sheet) ∧
    ∃ row, sheet !! Z.to_nat (idx - 1) = Some row ∧
      matches_row strip user_name question row = true ∧
      ∀ j row', (1 <= j < Z.to_nat (idx - 1))%nat → sheet !! j = Some row' →
        matches_row strip user_name question row' = false
  | None =>
    ∀ j row', (1 <= j)%nat → sheet !! j = Some row' →
      matches_row strip user_name question row' = false
  end.
Proof. apply find_row_by_question_spec. Qed.



Lemma set_cell_lookup col value row c :
  default ""%string (set_cell col value row !! c) =
  if decide (c = col) then value else default ""%string (row !! c).
Proof.
  unfold set_cell. destruct (decide (c = col)) as [->|Hc].
  - rewrite list_lookup_insert_eq; [done|]. rewrite length_app, length_replicate. lia.
  - rewrite list_lookup_insert_ne by done.
    destruct (decide (c < length row)%nat) as [Hlt|Hge].
    + by rewrite lookup_app_l.
    + rewrite lookup_app_r by lia. rewrite (lookup_ge_None_2 row) by lia.
      destruct (replicate _ _ !! _) eqn:Hr; [|done].
      by apply lookup_replicate in Hr as [-> _].
Qed.

Lemma cell_update_cell row col value sheet r c :
  (Z.to_nat (row - 1) < length sheet)%nat →
  cell (update_cell row col value sheet) r c =
  if decide (r = Z.to_nat (row - 1) ∧ c = Z.to_nat (col - 1)) then value
  else cell sheet r c.
Proof.
  intros Hrow. unfold cell, update_cell.
  destruct (decide (r = Z.to_nat (row - 1))) as [->|Hr].
  - destruct (lookup_lt_is_Some_2 sheet _ Hrow) as [old Hold].
    rewrite list_lookup_alter_eq, Hold. simpl. rewrite set_cell_lookup.
    repeat case_decide; try done; naive_solver.
  - rewrite list_lookup_alter_ne by done. rewrite decide_False by naive_solver. done.
Qed.

Lemma length_update_cell row col value sheet :
  length (update_cell row col value sheet) = length sheet.
Proof. unfold update_cell. apply length_alter. Qed.

Lemma update_feedback_spec info values_ok cell5_ok cell6_ok user_id question
    feedback manager sheet :
  let sheet' := update_feedback strip info values_ok cell5_ok cell6_ok
                  user_id question feedback manager sheet in
  let found := find_row_by_question strip values_ok
                 (get_slack_user_name info user_id) question sheet in
  length sheet' = length sheet ∧
  (∀ r c, found ≠ Some (Z.of_nat r + 1) ∨ (c ≠ 4 ∧ c ≠ 5)%nat →
     cell sheet' r c = cell sheet r c) ∧
  (∀ idx, found = Some idx → cell5_ok = true →
     cell sheet' (Z.to_nat (idx - 1)) 4 = feedback ∧
     cell sheet' (Z.to_nat (idx - 1)) 5 =
       if cell6_ok then manager else cell sheet (Z.to_nat (idx - 1)) 5).
Proof.
  intros sheet' found. subst sheet'. unfold update_feedback. fold found.
  assert (Hfound : ∀ idx, found = Some idx →
            2 <= idx ∧ (Z.to_nat (idx - 1) < length sheet)%nat).
  { intros idx Hidx. subst found. destruct values_ok; [|done].
    pose proof (find_row_by_question_spec (get_slack_user_name info user_id) question sheet)
      as Hspec.
    rewrite Hidx in Hspec. lia. }
  destruct found as [idx|] eqn:Hf; [|by repeat split].
  destruct (Hfound idx eq_refl) as [Hidx Hlt].
  rewrite bool_decide_eq_true_2 by lia.
  destruct cell5_ok, cell6_ok; rewrite ?length_update_cell;
    (split; [done|]); (split; [|intros ? [= <-] ?; try done]);
    try (intros r c Hrc);
    rewrite ?cell_update_cell by (rewrite ?length_update_cell; done);
    repeat case_decide; try done; try lia;
    try (destruct Hrc as [Hr|[? ?]]; [destruct Hr; f_equal; lia|lia]).
  all: split; repeat (rewrite ?cell_update_cell by (rewrite ?length_update_cell; done);
                      repeat case_decide); try done; try lia; naive_solver lia.
Qed.

(** [update_feedback] keeps the number of rows and writes at most two cells:
    columns 5 and 6 of the row [find_row_by_question] gives.  When that
    row is found and the first write goes through, column 5 holds the
    feedback; column 6 holds the manager if the second write goes through
    too, and keeps what it held if it does not. *)
Theorem update_feedback_cells info values_ok cell5_ok cell6_ok user_id question
    feedback manager sheet :
  let sheet' := update_feedback strip info values_ok cell5_ok cell6_ok
                  user_id question feedback manager sheet in
  let found := find_row_by_question strip values_ok
                 (get_slack_user_name info user_id) question sheet in
  length sheet' = length sheet ∧
  (∀ r c, found ≠ Some (Z.of_nat r + 1) ∨ (c ≠ 4 ∧ c ≠ 5)%nat →
     cell sheet' r c = cell sheet r c) ∧
  (∀ idx, found = Some idx → cell5_ok = true →
     cell sheet' (Z.to_nat (idx - 1)) 4 = feedback ∧
     cell sheet' (Z.to_nat (idx - 1)) 5 =
       if cell6_ok then manager else cell sheet (Z.to_nat (idx - 1)) 5).
Proof. apply update_feedback_spec. Qed.

(** A question that has just been logged can be given its feedback: on a
    sheet with its header row, after [log_entry] has added the row of a
    question that was not yet logged, [update_feedback] finds a row below
    the header and leaves the feedback and the manager in columns 5 and 6
    of that row, provided that its user is given the name of the logged row
    by [get_slack_user_name] and its question is the logged one (both up
    to outer blanks), that the sheet can be read, and that both writes go
    through.  When the sheet cannot be read, it leaves the sheet as it
    is. *)
Theorem feedback_reaches_logged_question info1 info2 ts user1 user2 q1 q2 answer f0 m0
    feedback manager sheet :
  sheet ≠ [] →
  let name1 := get_slack_user_name info1 user1 in
  let name2 := get_slack_user_name info2 user2 in
  ¬ logged strip lower name1 q1 sheet →
  strip name2 = strip name1 →
  strip q2 = strip q1 →
  let sheet1 := log_entry strip lower info1 ts true true user1 q1 answer f0 m0 sheet in
  let sheet2 := update_feedback strip info2 true true true user2 q2 feedback manager sheet1 in
  (∃ idx,
     find_row_by_question strip true name2 q2 sheet1 = Some idx ∧
     2 <= idx <= Z.of_nat (length sheet1) ∧
     cell sheet2 (Z.to_nat (idx - 1)) 4 = feedback ∧
     cell sheet2 (Z.to_nat (idx - 1)) 5 = manager) ∧
  ∀ cell5_ok cell6_ok,
    update_feedback strip info2 false cell5_ok cell6_ok user2 q2 feedback manager sheet1
      = sheet1.
Proof.
  intros Hsheet name1 name2 Hnew Hname Hq sheet1 sheet2. split; [|done].
  assert (Hrow : sheet1 !! length sheet = Some [ts; name1; q1; answer; f0; m0]).
  { unfold sheet1, log_entry, logged in *. fold name1.
    destruct (existsb _ (tail sheet)); [done|]. by rewrite list_lookup_middle. }
  pose proof (find_row_by_question_spec name2 q2 sheet1) as Hspec.
  pose proof (update_feedback_spec info2 true true true user2 q2 feedback manager sheet1)
    as (_ & _ & Hcells).
  fold name2 in Hcells.
  destruct (find_row_by_question strip true name2 q2 sheet1) as [idx|] eqn:Hfind.
  - exists idx. destruct Hspec as [Hidx _]. split; [done|]. split; [done|].
    by apply Hcells.
  - exfalso. specialize (Hspec (length sheet) _ ltac:(destruct sheet; simpl; [done|lia]) Hrow).
    simpl in Hspec. by rewrite !bool_decide_eq_true_2 in Hspec.
Qed.

End sheet_properties.


Lemma feedback_reaches_logged_question_witness :
  let bob_info := UsersInfo true (Some "Bob"%string) in
  let sheet1 := log_entry (fun s => s) (fun s => s) bob_info
                  "2024-01-01 10:00:00" true true "U1" "printer" "answer" "Pending" "Pending"
                  [["Time"; "User"; "Question"]%string] in
  ∃ idx,
    find_row_by_question (fun s => s) true "Bob" "printer" sheet1 = Some idx ∧
    2 <= idx <= Z.of_nat (length sheet1) ∧
    cell (update_feedback (fun s => s) bob_info true true true
            "U1" "printer" "No" "Pending" sheet1) (Z.to_nat (idx - 1)) 4 = "No"%string ∧
    cell (update_feedback (fun s => s) bob_info true true true
            "U1" "printer" "No" "Pending" sheet1) (Z.to_nat (idx - 1)) 5 = "Pending"%string.
Proof.
  cbv zeta.
  refine (proj1 (feedback_reaches_logged_question (fun s => s) (fun s => s)
           (UsersInfo true (Some "Bob"%string)) (UsersInfo true (Some "Bob"%string))
           "2024-01-01 10:00:00" "U1" "U1" "printer" "printer" "answer"
           "Pending" "Pending" "No" "Pending" [["Time"; "User"; "Question"]%string]
           _ _ _ _));
    [done | intros H; vm_compute in H; discriminate | done | done].
Defined.

(** ** The excluded agents of [__init__] *)

Lemma split_comma_trailing s :
  ∃ first rest, split_comma (s +:+ ",") = first :: rest ++ [""%string].
Proof.
  induction s as [|a s (first & rest & IH)]; rewrite ?append_nil, ?append_cons; simpl.
  - by exists ""%string, [].
  - rewrite IH. destruct (Ascii.eqb a ",").
    + by exists ""%string, (first :: rest).
    + by exists (String a first), rest.
Qed.

(** The set [__init__] reads from [EXCLUDED_AGENTS]: empty for an unset or
    empty value; otherwise [__init__] raises if and only if a piece between
    commas is no integer, and when it does not raise every piece is an
    integer and the set holds exactly the integers of the pieces.  As
    [int("")] raises, a value that ends in a comma makes [__init__]
    raise. *)
Theorem parse_excluded_pieces int excluded :
  parse_excluded int ""%string = Some ∅ ∧
  (excluded ≠ ""%string →
   (parse_excluded int excluded = None ↔
    Exists (fun piece => int piece = None) (split_comma excluded)) ∧
   ∀ ids, parse_excluded int excluded = Some ids →
     Forall (fun piece => is_Some (int piece)) (split_comma excluded) ∧
     ∀ i, i ∈ ids ↔ ∃ piece, piece ∈ split_comma excluded ∧ int piece = Some i) ∧
  (int ""%string = None → parse_excluded int (excluded +:+ ",") = None).
Proof.
  split; [done|]. split.
  - intros Hne. unfold parse_excluded. rewrite decide_False by done. split.
    + rewrite fmap_None. apply mapM_None.
    + intros ids Hids. apply fmap_Some in Hids as (l & Hm & ->).
      apply mapM_Some in Hm. split.
      * apply Forall_forall. intros piece Hin.
        apply list_elem_of_lookup in Hin as [k Hk].
        destruct (Forall2_lookup_l _ _ _ _ _ Hm Hk) as (j & _ & Hint). by exists j.
      * intros i. rewrite elem_of_list_to_set. split.
        -- intros Hi. apply list_elem_of_lookup in Hi as [k Hk].
           destruct (Forall2_lookup_r _ _ _ _ _ Hm Hk) as (piece & Hpiece & Hint).
           exists piece. split; [|done]. by eapply list_elem_of_lookup_2.
        -- intros (piece & Hin & Hint). apply list_elem_of_lookup in Hin as [k Hk].
           destruct (Forall2_lookup_l _ _ _ _ _ Hm Hk) as (j & Hj & Hint').
           rewrite Hint in Hint'. simplify_eq. by eapply list_elem_of_lookup_2.
  - intros Hempty. unfold parse_excluded.
    rewrite decide_False by (by destruct excluded).
    assert (mapM int (split_comma (excluded +:+ ",")) = None) as ->; [|done].
    apply mapM_None, Exists_exists. exists ""%string. split; [|done].
    destruct (split_comma_trailing excluded) as (first & rest & ->).
    apply elem_of_cons. right. apply elem_of_app. right. by left.
Qed.

(** ** What enters the ledger *)

Lemma process_agent_enters t o c c' e i :
  i ∉ alerted_agents (self c) →
  i ∈ alerted_agents (self c') →
  process_agent t o c = (c', e) →
  entry_of i o ∧ watched o ∧
  ∃ name d, agent_name (fst o) = Some name ∧ alerts c' = alerts c ++ [(name, d)].
Proof.
  intros Hout Hin H. unfold entry_of, watched. process_cases; try done.
  all: try (exfalso; set_solver).
  all: assert (i = z) as -> by set_solver.
  all: eauto 10.
Qed.

Lemma for_agents_enters t i l : ∀ c c' e,
  i ∉ alerted_agents (self c) →
  i ∈ alerted_agents (self c') →
  for_agents t l c = (c', e) →
  ∃ o name d, o ∈ l ∧ entry_of i o ∧ watched o ∧
    agent_name (fst o) = Some name ∧ (name, d) ∈ alerts c'.
Proof.
  induction l as [|o l IH]; intros c c' e Hout Hin H; simpl in H.
  - by simplify_eq.
  - destruct (process_agent t o c) as [c1 e1] eqn:Hp.
    destruct (decide (i ∈ alerted_agents (self c1))) as [Hin1|Hout1].
    + destruct (process_agent_enters _ _ _ _ _ _ Hout Hin1 Hp)
        as (Hi & Hw & name & d & Hname & Hal).
      exists o, name, d. repeat split; [by left|done..|].
      assert (alerts c1 `prefix_of` alerts c') as Hpre.
      { destruct e1; [by simplify_eq|]. by apply for_agents_grows in H as [_ ?]. }
      apply (elem_of_prefix _ _ _ Hpre). rewrite Hal. apply elem_of_app. right. by left.
    + destruct e1; [by simplify_eq|].
      destruct (IH _ _ _ Hout1 Hin H) as (o' & name & d & Ho' & Hrest).
      exists o', name, d. split; [by right|done].
Qed.

(** An agent enters the ledger in a cycle only with an alert: if it is in
    the ledger after the cycle and was not before, the listing has a record
    of it in the watched status and the cycle sent an alert under that
    record's name. *)
Theorem ledger_entry_has_alert p m i :
  i ∉ alerted_agents m →
  i ∈ alerted_agents (monitor (monitor_cycle p m)) →
  ∃ o name d, o ∈ get_agents (users p) ∧ entry_of i o ∧ watched o ∧
    agent_name (fst o) = Some name ∧ (name, d) ∈ sent (monitor_cycle p m).
Proof.
  intros Hout Hin.
  destruct (monitor_cycle_loop p m) as (c & e & Hf & Hm & -> & _). rewrite Hm in Hin.
  by apply (for_agents_enters _ i) in Hf.
Qed.

Lemma ledger_entry_has_alert_witness :
  ∃ o name d, o ∈ get_agents (users (watched_poll alice 600)) ∧ entry_of 7 o ∧ watched o ∧
    agent_name (fst o) = Some name ∧
    (name, d) ∈ sent (monitor_cycle (watched_poll alice 600)
                        (monitor_after [watched_poll alice 0] (init ∅))).
Proof.
  apply (ledger_entry_has_alert (watched_poll alice 600)
           (monitor_after [watched_poll alice 0] (init ∅)) 7); compute_done.
Defined.
